(** * VolumeSelect: selecting loose mesh parts by bounding-box volume

    A shallow embedding of [LS_OT_select_by_ranges.execute] from
    [VolumeSelect.py], and the properties of its three stages: the
    extraction of the connected components, the bounding-box volume of a
    component, and the matching of the volumes against the ranges that
    decides which vertices, edges and faces end up selected.

    Conventions of the embedding:
    - a vertex is identified with its index in [bm.verts], an edge and a
      face with their index in [bm.edges] and [bm.faces]; an element carries
      its [select] flag, and [x.select = b] writes that flag and no other;
    - coordinates and volumes are exact rationals ([Q]): rounding,
      infinities and NaN of floating point numbers are not modelled;
    - a Python set of vertices is a [gset vert]; the element that
      [set.pop()] returns is picked by an explicit list of choices, one per
      pop, so that a property proved for every list of choices holds
      whatever the order of the traversal;
    - the two [while] loops run on fuel that the operator computes itself;
      a raised exception, and fuel running out, is a [Raise] result. *)

From Stdlib Require Import QArith Qabs Lqa Lia String.
From stdpp Require Import base gmap sets list strings pretty.

Close Scope Q_scope.
Close Scope string_scope.

(** * The program *)

(** ** Exceptions *)

Inductive exn := KeyError | ValueError | IndexError | OutOfFuel.

Inductive result (A : Type) :=
  | Ok (a : A)
  | Raise (e : exn).
Arguments Ok {A} a.
Arguments Raise {A} e.

#[global] Instance result_ret : MRet result := λ A a, Ok a.
#[global] Instance result_bind : MBind result := λ A B f r,
  match r with
  | Ok a => f a
  | Raise e => Raise e
  end.

(** ** Geometry: [mathutils.Vector] and [mathutils.Matrix] *)

Record Vector := mkVector { vx : Q; vy : Q; vz : Q }.

Record Row := mkRow { r0 : Q; r1 : Q; r2 : Q; r3 : Q }.

(** A 4x4 matrix, row by row. *)
Record Matrix := mkMatrix { row_x : Row; row_y : Row; row_z : Row; row_w : Row }.

Definition row_dot (r : Row) (v : Vector) : Q :=
  (r0 r * vx v + r1 r * vy v + r2 r * vz v + r3 r)%Q.

(** [matrix_world @ v.co]: the 3D vector is extended with [w = 1], and the
    result is cut back to three components (the last row is not used). *)
Definition mat_mul_vec (m : Matrix) (v : Vector) : Vector :=
  mkVector (row_dot (row_x m) v) (row_dot (row_y m) v) (row_dot (row_z m) v).

Definition vec_sub (a b : Vector) : Vector :=
  mkVector (vx a - vx b)%Q (vy a - vy b)%Q (vz a - vz b)%Q.

Definition Qltb (a b : Q) : bool := negb (Qle_bool b a).

(** Python's [min] and [max] over a non-empty iterable keep the first of the
    smallest (largest) items; on an empty iterable they raise [ValueError]. *)
Definition py_min (l : list Q) : result Q :=
  match l with
  | [] => Raise ValueError
  | x :: l' => Ok (foldl (λ acc y, if Qltb y acc then y else acc) x l')
  end.

Definition py_max (l : list Q) : result Q :=
  match l with
  | [] => Raise ValueError
  | x :: l' => Ok (foldl (λ acc y, if Qltb acc y then y else acc) x l')
  end.

(** ** The mesh: [bmesh] vertices, edges and faces *)

Abbreviation vert := nat.

Record BMVert := mkVert { co : Vector; v_select : bool }.
Record BMEdge := mkEdge { e_verts : vert * vert; e_select : bool }.
Record BMFace := mkFace { f_verts : list vert; f_select : bool }.

Record BMesh := mkMesh {
  bm_verts : list BMVert;
  bm_edges : list BMEdge;
  bm_faces : list BMFace
}.

Definition set_v_select (b : bool) (v : BMVert) : BMVert := mkVert (co v) b.
Definition set_e_select (b : bool) (e : BMEdge) : BMEdge := mkEdge (e_verts e) b.
Definition set_f_select (b : bool) (f : BMFace) : BMFace := mkFace (f_verts f) b.

(** [e.other_vert(v)] *)
Definition other_vert (e : BMEdge) (v : vert) : option vert :=
  if decide ((e_verts e).1 = v) then Some (e_verts e).2
  else if decide ((e_verts e).2 = v) then Some (e_verts e).1
  else None.

Definition incident (v : vert) (je : nat * BMEdge) : Prop :=
  (e_verts je.2).1 = v ∨ (e_verts je.2).2 = v.

#[global] Instance incident_dec v je : Decision (incident v je).
Proof. unfold incident. apply _. Defined.

(** [v.link_edges]: the edges that use [v], each with its index. *)
Definition link_edges (bm : BMesh) (v : vert) : list (nat * BMEdge) :=
  filter (incident v) (imap (λ j e, (j, e)) (bm_edges bm)).

(** ** Threshold ranges *)

Record LS_ThresholdItem := mkItem {
  use_min : bool;
  min_value : Q;
  use_max : bool;
  max_value : Q;
  label : string
}.

(** The loop that builds [ranges]: a disabled bound becomes [None]. *)
Definition build_ranges (items : list LS_ThresholdItem) : list (option Q * option Q) :=
  map (λ item,
         (if use_min item then Some (min_value item) else None,
          if use_max item then Some (max_value item) else None)) items.

(** ** Connected components *)

(** [set.pop()], the popped element being the one at position [c] (modulo
    the size) of the set's elements. *)
Definition set_pop (c : nat) (s : gset vert) : result (vert * gset vert) :=
  match elements s with
  | [] => Raise KeyError
  | x :: l => let y := nth (c mod S (length l)) (x :: l) x in Ok (y, s ∖ {[y]})
  end.

(** The state of the inner traversal: [unvisited], [comp] and [stack]
    (the top of the stack is the head of the list). *)
Definition walk := (gset vert * gset vert * list vert)%type.

(** One round of [for e in v.link_edges]. *)
Definition visit_edge (v : vert) (st : walk) (je : nat * BMEdge) : walk :=
  let '(unvisited, comp, stack) := st in
  match other_vert je.2 v with
  | Some u =>
      if decide (u ∈ unvisited)
      then (unvisited ∖ {[u]}, comp ∪ {[u]}, u :: stack)
      else st
  | None => st
  end.

(** [while stack: ...] *)
Fixpoint flood (fuel : nat) (bm : BMesh) (st : walk) : result (gset vert * gset vert) :=
  match st with
  | (unvisited, comp, []) => Ok (unvisited, comp)
  | (unvisited, comp, v :: stack) =>
      match fuel with
      | O => Raise OutOfFuel
      | S fuel' =>
          flood fuel' bm (foldl (visit_edge v) (unvisited, comp, stack) (link_edges bm v))
      end
  end.

(** [while unvisited: ...] *)
Fixpoint find_parts (fuel : nat) (choices : list nat) (bm : BMesh)
    (unvisited : gset vert) (parts : list (gset vert)) : result (list (gset vert)) :=
  if decide (unvisited = ∅) then Ok parts
  else
    match fuel with
    | O => Raise OutOfFuel
    | S fuel' =>
        '(seed, unvisited1) ← set_pop (hd 0 choices) unvisited;
        '(unvisited2, comp) ←
          flood (S (size unvisited1)) bm (unvisited1, {[seed]}, [seed]);
        find_parts fuel' (tl choices) bm unvisited2 (parts ++ [comp])
    end.

Definition all_verts (bm : BMesh) : gset vert :=
  list_to_set (seq 0 (length (bm_verts bm))).

Definition extract_components (choices : list nat) (bm : BMesh) : result (list (gset vert)) :=
  find_parts (length (bm_verts bm)) choices bm (all_verts bm) [].

(** ** Bounding-box volumes *)

Fixpoint result_mapM {A B : Type} (f : A → result B) (l : list A) : result (list B) :=
  match l with
  | [] => Ok []
  | a :: l' => b ← f a; bs ← result_mapM f l'; Ok (b :: bs)
  end.

(** [obj.matrix_world @ v.co] for the vertex of index [v]. *)
Definition world_co (mw : Matrix) (bm : BMesh) (v : vert) : result Vector :=
  match bm_verts bm !! v with
  | Some bv => Ok (mat_mul_vec mw (co bv))
  | None => Raise IndexError
  end.

(** The bounding-box volume of a list of world-space positions. *)
Definition bbox_volume (world_coords : list Vector) : result Q :=
  min_x ← py_min (map vx world_coords);
  min_y ← py_min (map vy world_coords);
  min_z ← py_min (map vz world_coords);
  max_x ← py_max (map vx world_coords);
  max_y ← py_max (map vy world_coords);
  max_z ← py_max (map vz world_coords);
  let min_c := mkVector min_x min_y min_z in
  let max_c := mkVector max_x max_y max_z in
  let size := vec_sub max_c min_c in
  Ok (Qabs (vx size * vy size * vz size)).

(** The body of [for comp in parts] in the volume loop. *)
Definition comp_volume (mw : Matrix) (bm : BMesh) (comp : gset vert) : result Q :=
  world_coords ← result_mapM (world_co mw bm) (elements comp);
  bbox_volume world_coords.

(** ** Matching a volume against the ranges *)

(** [vmin is not None and vol < vmin] *)
Definition below_min (vol : Q) (vmin : option Q) : bool :=
  match vmin with
  | Some m => Qltb vol m
  | None => false
  end.

(** [vmax is not None and vol > vmax] *)
Definition above_max (vol : Q) (vmax : option Q) : bool :=
  match vmax with
  | Some m => Qltb m vol
  | None => false
  end.

(** The loop [for vmin, vmax in ranges] with its [continue] and [break];
    the value is the final [matched]. *)
Fixpoint matched (vol : Q) (ranges : list (option Q * option Q)) : bool :=
  match ranges with
  | [] => false
  | (vmin, vmax) :: rest =>
      if below_min vol vmin then matched vol rest
      else if above_max vol vmax then matched vol rest
      else true
  end.

(** ** Selection *)

(** [context.tool_settings.mesh_select_mode] *)
Record SelectMode := mkMode { use_verts : bool; use_edges : bool; use_faces : bool }.

(** The three clearing loops. *)
Definition clear_selection (mode : SelectMode) (bm : BMesh) : BMesh :=
  mkMesh
    (if use_verts mode then map (set_v_select false) (bm_verts bm) else bm_verts bm)
    (if use_edges mode then map (set_e_select false) (bm_edges bm) else bm_edges bm)
    (if use_faces mode then map (set_f_select false) (bm_faces bm) else bm_faces bm).

(** [for v in comp: v.select = True] *)
Definition select_comp_verts (comp : gset vert) (vs : list BMVert) : list BMVert :=
  foldl (λ vs v, alter (set_v_select true) v vs) vs (elements comp).

(** [e.verts[0] in comp and e.verts[1] in comp] *)
Definition both_in (comp : gset vert) (e : BMEdge) : bool :=
  bool_decide ((e_verts e).1 ∈ comp) && bool_decide ((e_verts e).2 ∈ comp).

(** [all(v in comp for v in f.verts)] *)
Definition all_in (comp : gset vert) (f : BMFace) : bool :=
  forallb (λ v, bool_decide (v ∈ comp)) (f_verts f).

(** [if e.verts[0] in comp and e.verts[1] in comp: e.select = True] *)
Definition select_edge (comp : gset vert) (es : list BMEdge) (je : nat * BMEdge) : list BMEdge :=
  if both_in comp je.2 then alter (set_e_select true) je.1 es else es.

(** [for v in comp: for e in v.link_edges: ...] *)
Definition select_comp_edges (bm : BMesh) (comp : gset vert) (es : list BMEdge) : list BMEdge :=
  foldl (λ es v, foldl (select_edge comp) es (link_edges bm v)) es (elements comp).

(** [for f in bm.faces: if all(v in comp for v in f.verts): f.select = True] *)
Definition select_comp_faces (comp : gset vert) (fs : list BMFace) : list BMFace :=
  map (λ f, if all_in comp f then set_f_select true f else f) fs.

Definition select_comp (mode : SelectMode) (comp : gset vert) (bm : BMesh) : BMesh :=
  mkMesh
    (if use_verts mode then select_comp_verts comp (bm_verts bm) else bm_verts bm)
    (if use_edges mode then select_comp_edges bm comp (bm_edges bm) else bm_edges bm)
    (if use_faces mode then select_comp_faces comp (bm_faces bm) else bm_faces bm).

(** The loop [for comp, vol in zip(parts, volumes)]. *)
Definition select_matching (mode : SelectMode) (ranges : list (option Q * option Q))
    (bm : BMesh) (pv : list (gset vert * Q)) : BMesh :=
  foldl (λ bm cv, if matched cv.2 ranges then select_comp mode cv.1 bm else bm) bm pv.

(** [LS_OT_select_by_ranges.execute]: the scene's range items, the select
    mode, the object's world matrix and the edit mesh go in; the mesh with
    its new selection flags comes out. *)
Definition execute (choices : list nat) (items : list LS_ThresholdItem)
    (mode : SelectMode) (mw : Matrix) (bm : BMesh) : result BMesh :=
  let ranges := build_ranges items in
  parts ← extract_components choices bm;
  volumes ← result_mapM (comp_volume mw bm) parts;
  Ok (select_matching mode ranges (clear_selection mode bm) (zip parts volumes)).

(** The selection masks read off a mesh. *)
Definition vert_mask (bm : BMesh) : list bool := map v_select (bm_verts bm).
Definition edge_mask (bm : BMesh) : list bool := map e_select (bm_edges bm).
Definition face_mask (bm : BMesh) : list bool := map f_select (bm_faces bm).

(** ** The scene: the list of ranges and the active index

    [Scene.ls_ranges] is a collection of [LS_ThresholdItem], and
    [Scene.ls_ranges_index] an integer. Of the collection the operators use
    [add()], which appends an item holding the declared defaults,
    [remove(i)], which takes the item at position [i] out, and
    [move(i, j)], which takes the item at position [i] out and puts it back
    at position [j]; a position outside the collection leaves it as it is. *)

Record Scene := mkScene {
  ls_ranges : list LS_ThresholdItem;
  ls_ranges_index : Z
}.

(** What [register] leaves: no range, and the index at -1. *)
Definition registered : Scene := mkScene [] (-1).

(** The defaults of the properties of [LS_ThresholdItem]. *)
Definition default_item : LS_ThresholdItem := mkItem false 0 false (1 # 10) "Range".

Definition set_label (s : string) (item : LS_ThresholdItem) : LS_ThresholdItem :=
  mkItem (use_min item) (min_value item) (use_max item) (max_value item) s.

Definition coll_add (l : list LS_ThresholdItem) : list LS_ThresholdItem :=
  l ++ [default_item].

Definition coll_remove {A} (i : Z) (l : list A) : list A :=
  if bool_decide (0 ≤ i < Z.of_nat (length l))%Z then delete (Z.to_nat i) l else l.

Definition list_move {A} (i j : nat) (l : list A) : list A :=
  match l !! i with
  | Some x => let l' := delete i l in take j l' ++ x :: drop j l'
  | None => l
  end.

Definition coll_move {A} (i j : Z) (l : list A) : list A :=
  if bool_decide ((0 ≤ i < Z.of_nat (length l))%Z ∧ (0 ≤ j < Z.of_nat (length l))%Z)
  then list_move (Z.to_nat i) (Z.to_nat j) l
  else l.

(** [LS_OT_add_range.execute] *)
Definition add_range (scn : Scene) : Scene :=
  let ranges := coll_add (ls_ranges scn) in
  let ranges :=
    alter (set_label ("Range " +:+ pretty (length ranges))) (length ranges - 1) ranges in
  mkScene ranges (Z.of_nat (length ranges) - 1)%Z.

(** [LS_OT_remove_range.poll] and [LS_OT_move_range.poll]: the collection
    is not empty and the index is not negative. *)
Definition ranges_poll (scn : Scene) : bool :=
  match ls_ranges scn with
  | [] => false
  | _ :: _ => (0 <=? ls_ranges_index scn)%Z
  end.

(** [LS_OT_remove_range.execute] *)
Definition remove_range (scn : Scene) : Scene :=
  let idx := ls_ranges_index scn in
  let ranges := coll_remove idx (ls_ranges scn) in
  mkScene ranges (Z.min (Z.max 0 (idx - 1)) (Z.of_nat (length ranges) - 1))%Z.

Inductive Direction := UP | DOWN.

(** [LS_OT_move_range.execute] *)
Definition move_range (direction : Direction) (scn : Scene) : Scene :=
  let idx := ls_ranges_index scn in
  match direction with
  | UP =>
      if (0 <? idx)%Z
      then mkScene (coll_move idx (idx - 1) (ls_ranges scn)) (idx - 1)
      else scn
  | DOWN =>
      if (idx <? Z.of_nat (length (ls_ranges scn)) - 1)%Z
      then mkScene (coll_move idx (idx + 1) (ls_ranges scn)) (idx + 1)
      else scn
  end.

(** The part of [LS_PT_panel.draw] that reads the active range: the item
    whose settings are shown, if any. *)
Definition panel_item (scn : Scene) : result (option LS_ThresholdItem) :=
  let idx := ls_ranges_index scn in
  if (0 <=? idx)%Z && (idx <? Z.of_nat (length (ls_ranges scn)))%Z
  then match ls_ranges scn !! Z.to_nat idx with
       | Some item => Ok (Some item)
       | None => Raise IndexError
       end
  else Ok None.

(** The three buttons of the panel. An operator runs only when its [poll]
    allows it. *)
Inductive Op := AddRange | RemoveRange | MoveRange (direction : Direction).

Definition run_op (scn : Scene) (op : Op) : Scene :=
  match op with
  | AddRange => add_range scn
  | RemoveRange => if ranges_poll scn then remove_range scn else scn
  | MoveRange direction => if ranges_poll scn then move_range direction scn else scn
  end.

Definition run_ops (ops : list Op) (scn : Scene) : Scene := foldl run_op scn ops.

(** * Specification *)

(** ** The mesh as a graph *)

(** Every edge joins two vertices of the mesh. *)
Definition wf_mesh (bm : BMesh) : Prop :=
  Forall (λ e, (e_verts e).1 < length (bm_verts bm) ∧
               (e_verts e).2 < length (bm_verts bm)) (bm_edges bm).

#[global] Instance wf_mesh_dec bm : Decision (wf_mesh bm).
Proof. unfold wf_mesh. apply _. Defined.

(** Edge adjacency, in either direction. *)
Definition adj (bm : BMesh) (u v : vert) : Prop :=
  ∃ e, e ∈ bm_edges bm ∧ (e_verts e = (u, v) ∨ e_verts e = (v, u)).

(** Connection by a path of edges that stays inside [c]. *)
Definition conn (bm : BMesh) (c : gset vert) : relation vert :=
  rtc (λ a b, adj bm a b ∧ a ∈ c ∧ b ∈ c).

(** A connected component of the mesh: a non-empty set of vertices of the
    mesh, connected from the inside, that no edge leaves. *)
Definition is_component (bm : BMesh) (c : gset vert) : Prop :=
  c ≠ ∅ ∧ c ⊆ all_verts bm ∧
  (∀ u v, u ∈ c → v ∈ c → conn bm c u v) ∧
  (∀ u w, u ∈ c → adj bm u w → w ∈ all_verts bm → w ∈ c).

(** The list [parts] splits the vertices of [bm] into its connected
    components: every vertex is in the component of exactly one position of
    the list, every component is a non-empty connected set of vertices, and
    no edge joins a component to the outside. *)
Definition is_partition (bm : BMesh) (parts : list (gset vert)) : Prop :=
  (∀ v, v < length (bm_verts bm) →
     ∃ i c, parts !! i = Some c ∧ v ∈ c ∧
            ∀ j c', parts !! j = Some c' → v ∈ c' → j = i) ∧
  (∀ c, c ∈ parts →
     c ≠ ∅ ∧ (∀ v, v ∈ c → v < length (bm_verts bm)) ∧
     ∀ u v, u ∈ c → v ∈ c → conn bm c u v) ∧
  (∀ e c, e ∈ bm_edges bm → c ∈ parts →
     ((e_verts e).1 ∈ c ↔ (e_verts e).2 ∈ c)).

(** Two meshes with the same positions, edges and faces: they may differ
    in their selection flags only. *)
Definition same_geometry (bm1 bm2 : BMesh) : Prop :=
  map co (bm_verts bm1) = map co (bm_verts bm2) ∧
  map e_verts (bm_edges bm1) = map e_verts (bm_edges bm2) ∧
  map f_verts (bm_faces bm1) = map f_verts (bm_faces bm2).

(** ** Invariants of the two loops of the traversal *)

(** What holds of [unvisited], [comp] and [stack] at each turn of
    [while stack], [U] being the vertices that were unvisited when the
    seed was popped (the seed included). *)
Definition walk_inv (bm : BMesh) (U : gset vert) (seed : vert) (st : walk) : Prop :=
  let '(unvisited, comp, stack) := st in
  unvisited ∪ comp = U ∧ unvisited ## comp ∧ seed ∈ comp ∧
  (∀ v, v ∈ stack → v ∈ comp) ∧
  (∀ u, u ∈ comp → conn bm comp seed u) ∧
  (∀ u w, u ∈ comp → adj bm u w → w ∈ U → w ∈ comp ∨ u ∈ stack).

(** What holds of [unvisited] and [parts] at each turn of
    [while unvisited]. *)
Definition parts_inv (bm : BMesh) (unvisited : gset vert) (parts : list (gset vert)) : Prop :=
  unvisited ⊆ all_verts bm ∧
  Forall (is_component bm) parts ∧
  (∀ c, c ∈ parts → c ## unvisited) ∧
  (∀ i j c c', parts !! i = Some c → parts !! j = Some c' → i ≠ j → c ## c') ∧
  (∀ v, v ∈ all_verts bm → v ∈ unvisited ∨ ∃ c, c ∈ parts ∧ v ∈ c).

(** ** Positions, extents and shapes *)

(** The world-space positions of the vertices of a component. *)
Definition world_pos (mw : Matrix) (bm : BMesh) (comp : gset vert) (w : Vector) : Prop :=
  ∃ v bv, v ∈ comp ∧ bm_verts bm !! v = Some bv ∧ w = mat_mul_vec mw (co bv).


(** The coordinates along one axis of a set of positions. *)
Definition coords (axis : Vector → Q) (P : Vector → Prop) (x : Q) : Prop :=
  ∃ w, P w ∧ axis w = x.

(** The extent of a set of coordinates: the distance between a least and a
    greatest member. *)
Definition extent (P : Q → Prop) (ext : Q) : Prop :=
  ∃ lo hi, P lo ∧ P hi ∧ (∀ x, P x → (lo <= x)%Q ∧ (x <= hi)%Q) ∧ (ext == hi - lo)%Q.

(** All the positions have the same coordinate along the axis. *)
Definition flat (axis : Vector → Q) (P : Vector → Prop) : Prop :=
  ∀ w w', P w → P w' → (axis w == axis w')%Q.




(** ** Ranges *)


(** The test that one range does not skip the volume. *)
Definition in_range (vol : Q) (r : option Q * option Q) : bool :=
  negb (below_min vol r.1) && negb (above_max vol r.2).

(** What of an item reaches the scan: the flags and the values, not the label. *)
Definition bounds (item : LS_ThresholdItem) : bool * Q * bool * Q :=
  (use_min item, min_value item, use_max item, max_value item).

(** Does the volume of the component fall into some range? *)
Definition comp_matched (mw : Matrix) (bm : BMesh) ranges (c : gset vert) : bool :=
  match comp_volume mw bm c with
  | Ok vol => matched vol ranges
  | Raise _ => false
  end.


(** ** Matching by any range

    The operator again, with the scan of the ranges replaced by the test
    that some range holds. *)

(** A range holds of a volume when its enabled bounds are satisfied,
    inclusively. *)
Definition range_holds (vol : Q) (r : option Q * option Q) : bool :=
  match r.1 with Some m => Qle_bool m vol | None => true end &&
  match r.2 with Some m => Qle_bool vol m | None => true end.

(** Matching as "some range of the list holds". *)
Definition matched_any (vol : Q) (ranges : list (option Q * option Q)) : bool :=
  existsb (range_holds vol) ranges.

(** The selection loop and the operator with [matched_any] for the scan. *)
Definition select_matching_any (mode : SelectMode) (ranges : list (option Q * option Q))
    (bm : BMesh) (pv : list (gset vert * Q)) : BMesh :=
  foldl (λ bm cv, if matched_any cv.2 ranges then select_comp mode cv.1 bm else bm) bm pv.

Definition execute_any (choices : list nat) (items : list LS_ThresholdItem)
    (mode : SelectMode) (mw : Matrix) (bm : BMesh) : result BMesh :=
  let ranges := build_ranges items in
  parts ← extract_components choices bm;
  volumes ← result_mapM (comp_volume mw bm) parts;
  Ok (select_matching_any mode ranges (clear_selection mode bm) (zip parts volumes)).

(** ** The selection in closed form *)

(** Flagging the vertices, edges and faces that a test picks. *)
Definition mark_verts (hit : nat → bool) (vs : list BMVert) : list BMVert :=
  imap (λ i v, if hit i then set_v_select true v else v) vs.
Definition mark_edges (hit : BMEdge → bool) (es : list BMEdge) : list BMEdge :=
  map (λ e, if hit e then set_e_select true e else e) es.
Definition mark_faces (hit : BMFace → bool) (fs : list BMFace) : list BMFace :=
  map (λ f, if hit f then set_f_select true f else f) fs.

(** Is the element inside some component of the list whose volume matches? *)
Definition vert_hit ranges (pv : list (gset vert * Q)) (i : nat) : bool :=
  existsb (λ cv, matched cv.2 ranges && bool_decide (i ∈ cv.1)) pv.
Definition edge_hit ranges (pv : list (gset vert * Q)) (e : BMEdge) : bool :=
  existsb (λ cv, matched cv.2 ranges && both_in cv.1 e) pv.
Definition face_hit ranges (pv : list (gset vert * Q)) (f : BMFace) : bool :=
  existsb (λ cv, matched cv.2 ranges && all_in cv.1 f) pv.

(** Is there a matched component among [parts] that passes the test [q]? *)
Definition comp_hit (mw : Matrix) (bm : BMesh) ranges (parts : list (gset vert))
    (q : gset vert → bool) : bool :=
  existsb (λ c, comp_matched mw bm ranges c && q c) parts.

(** The mesh after the operator, given the components. *)
Definition selected_mesh (mode : SelectMode) (mw : Matrix) ranges
    (parts : list (gset vert)) (bm : BMesh) : BMesh :=
  mkMesh
    (if use_verts mode
     then mark_verts (λ i, comp_hit mw bm ranges parts (λ c, bool_decide (i ∈ c)))
            (map (set_v_select false) (bm_verts bm))
     else bm_verts bm)
    (if use_edges mode
     then mark_edges (λ e, comp_hit mw bm ranges parts (λ c, both_in c e))
            (map (set_e_select false) (bm_edges bm))
     else bm_edges bm)
    (if use_faces mode
     then mark_faces (λ f, comp_hit mw bm ranges parts (λ c, all_in c f))
            (map (set_f_select false) (bm_faces bm))
     else bm_faces bm).

(** ** Example inputs *)

(** Elements that are not selected. *)
Definition vertex_at (x y z : Q) : BMVert := mkVert (mkVector x y z) false.
Definition edge_of (p : vert * vert) : BMEdge := mkEdge p false.
Definition face_of (vs : list vert) : BMFace := mkFace vs false.

(** Five vertices in two loose parts: a path 0-1-2 and a segment 3-4. *)
Definition two_parts : BMesh :=
  mkMesh
    [vertex_at 0 0 0; vertex_at 1 0 0; vertex_at 1 1 0; vertex_at 5 5 5; vertex_at 6 7 8]
    (map edge_of [(0, 1); (3, 4); (1, 2)])
    [face_of [0; 1; 2]].


(** The unit cube: eight corners, twelve edges, six faces. *)
Definition cube_mesh : BMesh :=
  mkMesh
    [vertex_at 0 0 0; vertex_at 1 0 0; vertex_at 1 1 0; vertex_at 0 1 0;
     vertex_at 0 0 1; vertex_at 1 0 1; vertex_at 1 1 1; vertex_at 0 1 1]
    (map edge_of [(0, 1); (1, 2); (2, 3); (3, 0); (4, 5); (5, 6); (6, 7); (7, 4);
                  (0, 4); (1, 5); (2, 6); (3, 7)])
    (map face_of [[0; 1; 2; 3]; [4; 5; 6; 7]; [0; 1; 5; 4]; [1; 2; 6; 5];
                  [2; 3; 7; 6]; [3; 0; 4; 7]]).

(** The vertices of the cube, and of the diagonal. *)
Definition cube_comp : gset vert := list_to_set (seq 0 8).


(** World matrices: no transform, and a scale by two. *)
Definition identity_matrix : Matrix :=
  mkMatrix (mkRow 1 0 0 0) (mkRow 0 1 0 0) (mkRow 0 0 1 0) (mkRow 0 0 0 1).

Definition scale2_matrix : Matrix :=
  mkMatrix (mkRow 2 0 0 0) (mkRow 0 2 0 0) (mkRow 0 0 2 0) (mkRow 0 0 0 1).

Definition all_modes : SelectMode := mkMode true true true.

(** Ranges: up to 1, unbounded, and one with its minimum above its maximum. *)
Definition small_range : LS_ThresholdItem := mkItem false 0 true 1 "small".


(** Three vertices, the last of which no edge uses. *)
Definition isolated_mesh : BMesh :=
  mkMesh [vertex_at 0 0 0; vertex_at 1 2 3; vertex_at 4 4 4] [edge_of (0, 1)] [].

(** Two triangles in the plane [z = 0] that share no vertex. *)
Definition two_triangles : BMesh :=
  mkMesh
    [vertex_at 0 0 0; vertex_at 1 0 0; vertex_at 0 1 0;
     vertex_at 5 0 0; vertex_at 6 0 0; vertex_at 5 1 0]
    (map edge_of [(0, 1); (1, 2); (2, 0); (3, 4); (4, 5); (5, 3)])
    (map face_of [[0; 1; 2]; [3; 4; 5]]).

(** Ranges of the scenarios: from 5 to 10, from 9 up, up to 0, up to 1,
    from 2 up. *)
Definition range_5_10 : LS_ThresholdItem := mkItem true 5 true 10 "Range 1".
Definition range_from_9 : LS_ThresholdItem := mkItem true 9 false (1 # 10) "Range 1".
Definition range_up_to_0 : LS_ThresholdItem := mkItem false 0 true 0 "Range 1".
Definition range_A : LS_ThresholdItem := mkItem false 0 true 1 "A".
Definition range_B : LS_ThresholdItem := mkItem true 2 false (1 # 10) "B".

(** Settling a decidable hypothesis on a concrete input by evaluation. *)
Ltac by_compute := apply (bool_decide_unpack _); vm_compute; exact I.

(** ** Faces and their boundary *)

(** Some edge of the mesh joins the two vertices of the pair. *)
Definition joined (bm : BMesh) (p : vert * vert) : Prop :=
  Exists (λ e, e_verts e = p ∨ e_verts e = (p.2, p.1)) (bm_edges bm).

(** A face has vertices, they are vertices of the mesh, and an edge of the
    mesh joins each of them to the next. *)
Definition wf_face (bm : BMesh) (f : BMFace) : Prop :=
  f_verts f ≠ [] ∧
  Forall (λ v, v < length (bm_verts bm)) (f_verts f) ∧
  Forall (joined bm) (zip (f_verts f) (tail (f_verts f))).

Definition wf_faces (bm : BMesh) : Prop := Forall (wf_face bm) (bm_faces bm).

#[global] Instance joined_dec bm p : Decision (joined bm p).
Proof. unfold joined. apply _. Defined.

#[global] Instance wf_face_dec bm f : Decision (wf_face bm f).
Proof. unfold wf_face. apply _. Defined.

#[global] Instance wf_faces_dec bm : Decision (wf_faces bm).
Proof. unfold wf_faces. apply _. Defined.

(** ** The scene *)

(** The index is that of an item of the list, or -1 when there is none. *)
Definition index_ok (scn : Scene) : Prop :=
  match ls_ranges scn with
  | [] => ls_ranges_index scn = (-1)%Z
  | _ :: _ => (0 ≤ ls_ranges_index scn < Z.of_nat (length (ls_ranges scn)))%Z
  end.

(** The item with its minimum, when disabled, enabled at 0. *)
Definition min_from_zero (item : LS_ThresholdItem) : LS_ThresholdItem :=
  if use_min item then item
  else mkItem true 0 (use_max item) (max_value item) (label item).

(** The item that [add_range] appends to a list of [n] ranges. *)
Definition fresh_item (n : nat) : LS_ThresholdItem :=
  set_label ("Range " +:+ pretty (S n)) default_item.

(** Three ranges, the second of which is active. *)
Definition three_ranges : Scene :=
  run_ops [AddRange; AddRange; AddRange; MoveRange UP] registered.

(** * Properties *)

(** ** The mesh as a graph *)

Section Graph.
Context (bm : BMesh).

Lemma adj_sym u v : adj bm u v → adj bm v u.
Proof. intros (e & He & [H|H]); exists e; auto. Qed.

Lemma conn_sym c u v : conn bm c u v → conn bm c v u.
Proof.
  induction 1 as [|x y z (Ha & Hx & Hy) _ IH]; [apply rtc_refl|].
  eapply rtc_r; [exact IH|]. split_and!; auto using adj_sym.
Qed.

Lemma conn_mono c c' u v : c ⊆ c' → conn bm c u v → conn bm c' u v.
Proof.
  intros Hsub. apply rtc_subrel. intros x y (Ha & Hx & Hy).
  split_and!; auto.
Qed.

Lemma all_verts_lt v : v ∈ all_verts bm ↔ v < length (bm_verts bm).
Proof.
  unfold all_verts. rewrite elem_of_list_to_set, elem_of_seq. lia.
Qed.

Lemma wf_mesh_adj u v : wf_mesh bm → adj bm u v → u ∈ all_verts bm ∧ v ∈ all_verts bm.
Proof.
  intros Hwf (e & He & Hv). unfold wf_mesh in Hwf.
  rewrite Forall_forall in Hwf. specialize (Hwf e He).
  rewrite !all_verts_lt. destruct Hv as [Hv|Hv]; rewrite Hv in Hwf; simpl in Hwf; lia.
Qed.

Lemma elem_of_link_edges v j e :
  (j, e) ∈ link_edges bm v ↔
  bm_edges bm !! j = Some e ∧ ((e_verts e).1 = v ∨ (e_verts e).2 = v).
Proof.
  unfold link_edges. rewrite list_elem_of_filter, elem_of_lookup_imap.
  unfold incident. simpl. split.
  - intros (Hi & j' & e' & Heq & Hl). simplify_eq. auto.
  - intros (Hl & Hi). split; [done|]. eauto.
Qed.

(** The neighbours of [v] are what [other_vert] finds on [v.link_edges]. *)
Lemma adj_link_edges v u :
  adj bm v u ↔ ∃ je, je ∈ link_edges bm v ∧ other_vert je.2 v = Some u.
Proof.
  split.
  - intros (e & He & Hv). apply list_elem_of_lookup in He as [j Hj].
    exists (j, e). rewrite elem_of_link_edges. unfold other_vert. simpl.
    destruct Hv as [Hv|Hv]; rewrite Hv; simpl.
    + split; [auto|]. by rewrite decide_True.
    + split; [auto|]. destruct (decide (u = v)) as [->|]; [done|].
      by rewrite decide_True.
  - intros ([j e] & Hin & Ho). apply elem_of_link_edges in Hin as [Hl _].
    exists e. split; [by eapply list_elem_of_lookup_2|].
    unfold other_vert in Ho. simpl in Ho.
    destruct (e_verts e) as [a b]. simpl in *.
    repeat case_decide; simplify_eq; auto.
Qed.

(** *** The loop over [v.link_edges] *)

Lemma foldl_visit_edge v l unvisited comp stack :
  ∃ new,
    foldl (visit_edge v) (unvisited, comp, stack) l =
      (unvisited ∖ list_to_set new, comp ∪ list_to_set new, reverse new ++ stack) ∧
    NoDup new ∧
    ∀ u, u ∈ new ↔ u ∈ unvisited ∧ ∃ je, je ∈ l ∧ other_vert je.2 v = Some u.
Proof.
  revert unvisited comp stack.
  induction l as [|je l IH]; intros unvisited comp stack.
  - exists []. simpl. split_and!.
    + change (list_to_set []) with (∅ : gset vert).
      rewrite (difference_empty_L unvisited).
      rewrite (right_id_L ∅ (∪) comp). done.
    + constructor.
    + intros u. split; [by intros ?%elem_of_nil|]. intros (_ & je & ?%elem_of_nil & _). done.
  - cbn [foldl]. unfold visit_edge at 2.
    destruct (other_vert je.2 v) as [u|] eqn:Ho.
    + destruct (decide (u ∈ unvisited)) as [Hu|Hu].
      * destruct (IH (unvisited ∖ {[u]}) (comp ∪ {[u]}) (u :: stack))
          as (new & -> & Hnd & Hnew).
        exists (u :: new). split_and!.
        -- rewrite reverse_cons, <-app_assoc. simpl.
           assert (unvisited ∖ {[u]} ∖ list_to_set new =
                   unvisited ∖ ({[u]} ∪ list_to_set new)) as -> by set_solver.
           assert (comp ∪ {[u]} ∪ list_to_set new =
                   comp ∪ ({[u]} ∪ list_to_set new)) as -> by set_solver. done.
        -- constructor; [|done]. rewrite Hnew. set_solver.
        -- intros w. rewrite elem_of_cons, Hnew. split.
           ++ intros [->|(Hw & je' & Hin & Ho')].
              ** split; [done|]. exists je. split; [left|done].
              ** split; [set_solver|]. exists je'. split; [by right|done].
           ++ intros (Hw & je' & Hin & Ho').
              destruct (decide (w = u)) as [->|Hne]; [by left|]. right.
              split; [set_solver|].
              apply elem_of_cons in Hin as [->|Hin]; [congruence|eauto].
      * destruct (IH unvisited comp stack) as (new & -> & Hnd & Hnew).
        exists new. split_and!; [done..|].
        intros w. rewrite Hnew. split.
        -- intros (Hw & je' & Hin & Ho'). split; [done|]. exists je'. split; [by right|done].
        -- intros (Hw & je' & Hin & Ho'). split; [done|].
           apply elem_of_cons in Hin as [->|Hin]; [congruence|eauto].
    + destruct (IH unvisited comp stack) as (new & -> & Hnd & Hnew).
      exists new. split_and!; [done..|].
      intros w. rewrite Hnew. split.
      -- intros (Hw & je' & Hin & Ho'). split; [done|]. exists je'. split; [by right|done].
      -- intros (Hw & je' & Hin & Ho'). split; [done|].
         apply elem_of_cons in Hin as [->|Hin]; [congruence|eauto].
Qed.

(** *** The inner traversal *)

Lemma walk_inv_step U seed unvisited comp v stack :
  walk_inv bm U seed (unvisited, comp, v :: stack) →
  ∃ unvisited' comp' stack',
    foldl (visit_edge v) (unvisited, comp, stack) (link_edges bm v) =
      (unvisited', comp', stack') ∧
    walk_inv bm U seed (unvisited', comp', stack') ∧
    size unvisited' + length stack' = size unvisited + length stack.
Proof.
  intros (HU & Hdisj & Hseed & Hstack & Hconn & Hclosed).
  destruct (foldl_visit_edge v (link_edges bm v) unvisited comp stack)
    as (new & Heq & Hnd & Hnew).
  eexists _, _, _. split; [exact Heq|].
  assert (Hsub : (list_to_set new : gset vert) ⊆ unvisited).
  { intros u Hu. apply elem_of_list_to_set in Hu. by apply Hnew in Hu as [? _]. }
  assert (Hv : v ∈ comp) by (apply Hstack; left).
  split; [split_and!|].
  - subst U. apply set_eq. intros x.
    destruct (decide (x ∈ new)); clear -Hsub e || clear -Hsub n; set_solver.
  - clear -Hdisj Hsub. set_solver.
  - clear -Hseed. set_solver.
  - intros x [Hx|Hx]%elem_of_app.
    + rewrite elem_of_reverse in Hx. apply elem_of_union_r.
      by rewrite elem_of_list_to_set.
    + apply elem_of_union_l, Hstack. by right.
  - intros u [Hu|Hu]%elem_of_union.
    + eapply conn_mono; [|by apply Hconn]. apply union_subseteq_l.
    + apply elem_of_list_to_set in Hu. pose proof Hu as Hu'.
      apply Hnew in Hu as (_ & Hje). apply adj_link_edges in Hje.
      eapply rtc_r.
      * eapply conn_mono; [|by apply (Hconn v)]. apply union_subseteq_l.
      * split_and!; [done|by apply elem_of_union_l|].
        apply elem_of_union_r. by rewrite elem_of_list_to_set.
  - intros u w [Hu|Hu]%elem_of_union Hadj Hw.
    + destruct (Hclosed u w Hu Hadj Hw) as [Hc|Hs];
        [left; by apply elem_of_union_l|].
      apply elem_of_cons in Hs as [->|Hs].
      * left. rewrite <-HU in Hw.
        apply elem_of_union in Hw as [Hw|Hw]; [|by apply elem_of_union_l].
        apply elem_of_union_r, elem_of_list_to_set, Hnew.
        split; [done|]. by apply adj_link_edges.
      * right. apply elem_of_app. by right.
    + right. apply elem_of_app. left. apply elem_of_reverse.
      by apply elem_of_list_to_set in Hu.
  - rewrite length_app, length_reverse.
    rewrite size_difference by done.
    rewrite size_list_to_set by done.
    apply subseteq_size in Hsub. rewrite size_list_to_set in Hsub by done. lia.
Qed.

(** The traversal ends within [size unvisited + length stack] turns. *)
Lemma flood_spec U seed fuel unvisited comp stack :
  walk_inv bm U seed (unvisited, comp, stack) →
  size unvisited + length stack ≤ fuel →
  ∃ unvisited' comp',
    flood fuel bm (unvisited, comp, stack) = Ok (unvisited', comp') ∧
    walk_inv bm U seed (unvisited', comp', []).
Proof.
  revert unvisited comp stack.
  induction fuel as [|fuel IH]; intros unvisited comp stack Hinv Hfuel.
  - destruct stack as [|v stack]; [|simpl in Hfuel; lia].
    exists unvisited, comp. by split.
  - destruct stack as [|v stack]; [exists unvisited, comp; by split|].
    destruct (walk_inv_step _ _ _ _ _ _ Hinv)
      as (unvisited1 & comp1 & stack1 & Heq & Hinv1 & Hsize).
    cbn [flood]. rewrite Heq. apply IH; [done|]. simpl in Hfuel. lia.
Qed.

(** *** The outer loop *)

Lemma set_pop_spec c (s : gset vert) :
  s ≠ ∅ → ∃ y, set_pop c s = Ok (y, s ∖ {[y]}) ∧ y ∈ s.
Proof.
  intros Hne. unfold set_pop.
  destruct (elements s) as [|x l] eqn:Hel.
  - by apply elements_empty_inv, leibniz_equiv in Hel.
  - eexists. split; [done|].
    apply elem_of_elements. rewrite Hel. apply list_elem_of_In, nth_In.
    apply (Nat.mod_upper_bound c (S (length l))). lia.
Qed.

Lemma walk_inv_seed (unvisited : gset vert) seed :
  seed ∈ unvisited →
  walk_inv bm unvisited seed (unvisited ∖ {[seed]}, {[seed]}, [seed]).
Proof.
  intros Hseed. split_and!.
  - apply set_eq. intros x. destruct (decide (x = seed)); set_solver.
  - set_solver.
  - set_solver.
  - intros v Hv. apply list_elem_of_singleton in Hv. set_solver.
  - intros u Hu. apply elem_of_singleton in Hu as ->. apply rtc_refl.
  - intros u w Hu _ _. right. apply elem_of_singleton in Hu as ->. left.
Qed.

Lemma parts_inv_step unvisited parts seed unvisited2 comp :
  parts_inv bm unvisited parts →
  walk_inv bm unvisited seed (unvisited2, comp, []) →
  parts_inv bm unvisited2 (parts ++ [comp]) ∧ size unvisited2 < size unvisited.
Proof.
  intros (Hsub & Hcomps & Hdisj & Hpair & Hcover).
  intros (HU & Hud & Hseed & _ & Hconn & Hclosed).
  assert (Hc_sub : comp ⊆ unvisited) by (clear -HU; set_solver).
  assert (Hu_sub : unvisited2 ⊆ unvisited) by (clear -HU; set_solver).
  split; [split_and!|].
  - by etrans.
  - apply Forall_app. split; [done|]. apply Forall_singleton. split_and!.
    + clear -Hseed. set_solver.
    + by etrans.
    + intros u v Hu Hv. etrans; [apply conn_sym|]; by apply Hconn.
    + intros u w Hu Hadj Hw.
      destruct (Hcover w Hw) as [Hwu|(c & Hc & Hwc)].
      * destruct (Hclosed u w Hu Hadj) as [?|Hnil]; [by rewrite <-HU in *|done|].
        by apply elem_of_nil in Hnil.
      * exfalso. rewrite Forall_forall in Hcomps.
        destruct (Hcomps c Hc) as (_ & _ & _ & Hcl).
        assert (u ∈ c) by (apply (Hcl w u); auto using adj_sym).
        specialize (Hdisj c Hc). clear -Hdisj Hc_sub Hu H. set_solver.
  - intros c [Hc|Hc]%elem_of_app.
    + specialize (Hdisj c Hc). clear -Hdisj Hu_sub. set_solver.
    + apply list_elem_of_singleton in Hc as ->. clear -Hud. set_solver.
  - intros i j c c' Hi Hj Hij.
    apply lookup_app_Some in Hi as [Hi|[Hil Hi]];
      apply lookup_app_Some in Hj as [Hj|[Hjl Hj]].
    + by eapply Hpair.
    + apply list_lookup_singleton_Some in Hj as [_ <-].
      apply list_elem_of_lookup_2 in Hi. specialize (Hdisj c Hi).
      clear -Hdisj Hc_sub. set_solver.
    + apply list_lookup_singleton_Some in Hi as [_ <-].
      apply list_elem_of_lookup_2 in Hj. specialize (Hdisj c' Hj).
      clear -Hdisj Hc_sub. set_solver.
    + apply list_lookup_singleton_Some in Hi as [Hi _].
      apply list_lookup_singleton_Some in Hj as [Hj _]. lia.
  - intros v Hv. destruct (Hcover v Hv) as [Hvu|(c & Hc & Hvc)].
    + rewrite <-HU in Hvu. apply elem_of_union in Hvu as [?|?]; [by left|].
      right. exists comp. split; [|done]. apply elem_of_app. right. left.
    + right. exists c. split; [|done]. apply elem_of_app. by left.
  - apply subset_size. split; [done|].
    intros Hle. clear -Hle Hud Hseed Hc_sub. set_solver.
Qed.

(** The outer loop ends within [size unvisited] turns. *)
Lemma find_parts_spec fuel choices unvisited parts :
  parts_inv bm unvisited parts →
  size unvisited ≤ fuel →
  ∃ parts', find_parts fuel choices bm unvisited parts = Ok parts' ∧
            parts_inv bm ∅ parts'.
Proof.
  revert choices unvisited parts.
  induction fuel as [|fuel IH]; intros choices unvisited parts Hinv Hfuel.
  - assert (unvisited = ∅) as ->.
    { apply leibniz_equiv, size_empty_inv. lia. }
    exists parts. by split.
  - cbn [find_parts]. destruct (decide (unvisited = ∅)) as [->|Hne].
    { exists parts. by split. }
    destruct (set_pop_spec (hd 0 choices) unvisited Hne) as (seed & -> & Hseed).
    cbn [mbind result_bind].
    destruct (flood_spec unvisited seed (S (size (unvisited ∖ {[seed]})))
                (unvisited ∖ {[seed]}) {[seed]} [seed])
      as (unvisited2 & comp & -> & Hwalk).
    { by apply walk_inv_seed. }
    { simpl. lia. }
    cbn [mbind result_bind].
    destruct (parts_inv_step _ _ _ _ _ Hinv Hwalk) as [Hinv' Hsize].
    apply IH; [done|lia].
Qed.

Lemma parts_inv_init : parts_inv bm (all_verts bm) [].
Proof.
  split_and!; [done|constructor|..].
  - by intros c ?%elem_of_nil.
  - intros i j c c' Hi. by rewrite lookup_nil in Hi.
  - intros v Hv. by left.
Qed.

Lemma size_all_verts : size (all_verts bm) = length (bm_verts bm).
Proof.
  unfold all_verts. rewrite size_list_to_set by apply NoDup_seq.
  apply length_seq.
Qed.

(** The extraction always returns, and what it returns splits the
    vertices into components. *)
Lemma extract_components_spec choices :
  ∃ parts, extract_components choices bm = Ok parts ∧ parts_inv bm ∅ parts.
Proof.
  apply find_parts_spec; [apply parts_inv_init|]. by rewrite size_all_verts.
Qed.
End Graph.

(** ** The partition does not depend on the traversal *)

Section Partition.
Context (bm : BMesh).

(** A path that starts inside a set no edge leaves stays inside it. *)
Lemma conn_closed (c1 c2 : gset vert) u v :
  c1 ⊆ all_verts bm →
  (∀ u w, u ∈ c2 → adj bm u w → w ∈ all_verts bm → w ∈ c2) →
  conn bm c1 u v → u ∈ c2 → v ∈ c2.
Proof.
  intros Hsub Hclosed Hconn. induction Hconn as [|x y z (Ha & Hx & Hy) _ IH]; [done|].
  intros Hx2. apply IH. apply (Hclosed x y); auto.
Qed.

(** Two components that share a vertex are the same set. *)
Lemma component_eq (c1 c2 : gset vert) v :
  is_component bm c1 → is_component bm c2 → v ∈ c1 → v ∈ c2 → c1 = c2.
Proof.
  intros (_ & Hs1 & Hc1 & Hcl1) (_ & Hs2 & Hc2 & Hcl2) Hv1 Hv2.
  apply set_eq. intros u. split; intros Hu.
  - eapply (conn_closed c1 c2 v u); auto.
  - eapply (conn_closed c2 c1 v u); auto.
Qed.

Lemma parts_inv_elem parts c :
  parts_inv bm ∅ parts → c ∈ parts → is_component bm c.
Proof.
  intros (_ & Hcomps & _) Hc. rewrite Forall_forall in Hcomps. auto.
Qed.

Lemma parts_inv_cover parts v :
  parts_inv bm ∅ parts → v < length (bm_verts bm) → ∃ c, c ∈ parts ∧ v ∈ c.
Proof.
  intros (_ & _ & _ & _ & Hcover) Hv.
  destruct (Hcover v) as [Hv'|Hv']; [by apply all_verts_lt| |done].
  by apply not_elem_of_empty in Hv'.
Qed.

Lemma parts_inv_index parts i j c c' v :
  parts_inv bm ∅ parts →
  parts !! i = Some c → parts !! j = Some c' → v ∈ c → v ∈ c' → i = j.
Proof.
  intros (_ & _ & _ & Hpair & _) Hi Hj Hv Hv'.
  destruct (decide (i = j)) as [|Hne]; [done|].
  specialize (Hpair i j c c' Hi Hj Hne). set_solver.
Qed.


(** Whatever the order of traversal, the same components come out. *)
Lemma parts_inv_members parts1 parts2 c :
  parts_inv bm ∅ parts1 → parts_inv bm ∅ parts2 → c ∈ parts1 → c ∈ parts2.
Proof.
  intros H1 H2 Hc. pose proof (parts_inv_elem _ _ H1 Hc) as Hcomp.
  pose proof Hcomp as (Hne & Hsub & Hrest).
  apply set_choose_L in Hne as [v Hv].
  destruct (parts_inv_cover parts2 v H2) as (c2 & Hc2 & Hv2).
  { apply all_verts_lt. auto. }
  assert (c = c2) as ->; [|done].
  eapply component_eq; [done|by eapply parts_inv_elem|done..].
Qed.
End Partition.

(** ** Minimum, maximum and the bounding box *)

Lemma Qltb_lt a b : Qltb a b = true ↔ (a < b)%Q.
Proof.
  unfold Qltb. rewrite negb_true_iff, <-not_true_iff_false, Qle_bool_iff.
  split; [apply Qnot_le_lt|apply Qlt_not_le].
Qed.

Lemma Qltb_ge a b : Qltb a b = false ↔ (b <= a)%Q.
Proof. unfold Qltb. by rewrite negb_false_iff, Qle_bool_iff. Qed.

Lemma foldl_min_spec l acc :
  let r := foldl (λ acc y, if Qltb y acc then y else acc) acc l in
  (r = acc ∨ r ∈ l) ∧ (r <= acc)%Q ∧ ∀ x, x ∈ l → (r <= x)%Q.
Proof.
  revert acc. induction l as [|y l IH]; intros acc; simpl.
  - split_and!; [by left|apply Qle_refl|]. by intros x ?%elem_of_nil.
  - destruct (Qltb y acc) eqn:Hlt.
    + apply Qltb_lt in Hlt. destruct (IH y) as ([->|Hin] & Hle & Hall).
      * split_and!; [right; left|lra|].
        intros x [->|Hx]%elem_of_cons; [apply Qle_refl|auto].
      * split_and!; [right; by right|lra|].
        intros x [->|Hx]%elem_of_cons; [done|auto].
    + apply Qltb_ge in Hlt. destruct (IH acc) as (Hin & Hle & Hall).
      split_and!; [|done|].
      * destruct Hin as [->|Hin]; [by left|right; by right].
      * intros x [->|Hx]%elem_of_cons; [lra|auto].
Qed.

Lemma foldl_max_spec l acc :
  let r := foldl (λ acc y, if Qltb acc y then y else acc) acc l in
  (r = acc ∨ r ∈ l) ∧ (acc <= r)%Q ∧ ∀ x, x ∈ l → (x <= r)%Q.
Proof.
  revert acc. induction l as [|y l IH]; intros acc; simpl.
  - split_and!; [by left|apply Qle_refl|]. by intros x ?%elem_of_nil.
  - destruct (Qltb acc y) eqn:Hlt.
    + apply Qltb_lt in Hlt. destruct (IH y) as ([->|Hin] & Hle & Hall).
      * split_and!; [right; left|lra|].
        intros x [->|Hx]%elem_of_cons; [apply Qle_refl|auto].
      * split_and!; [right; by right|lra|].
        intros x [->|Hx]%elem_of_cons; [done|auto].
    + apply Qltb_ge in Hlt. destruct (IH acc) as (Hin & Hle & Hall).
      split_and!; [|done|].
      * destruct Hin as [->|Hin]; [by left|right; by right].
      * intros x [->|Hx]%elem_of_cons; [lra|auto].
Qed.

Lemma py_min_spec l :
  l ≠ [] → ∃ m, py_min l = Ok m ∧ m ∈ l ∧ ∀ x, x ∈ l → (m <= x)%Q.
Proof.
  destruct l as [|a l]; [done|]. intros _. eexists. split; [done|].
  destruct (foldl_min_spec l a) as (Hin & Hle & Hall). split.
  - destruct Hin as [->|Hin]; [left|by right].
  - intros x [->|Hx]%elem_of_cons; auto.
Qed.

Lemma py_max_spec l :
  l ≠ [] → ∃ m, py_max l = Ok m ∧ m ∈ l ∧ ∀ x, x ∈ l → (x <= m)%Q.
Proof.
  destruct l as [|a l]; [done|]. intros _. eexists. split; [done|].
  destruct (foldl_max_spec l a) as (Hin & Hle & Hall). split.
  - destruct Hin as [->|Hin]; [left|by right].
  - intros x [->|Hx]%elem_of_cons; auto.
Qed.

Lemma extent_unique P e1 e2 : extent P e1 → extent P e2 → (e1 == e2)%Q.
Proof.
  intros (lo1 & hi1 & Hlo1 & Hhi1 & Hb1 & He1) (lo2 & hi2 & Hlo2 & Hhi2 & Hb2 & He2).
  destruct (Hb1 lo2 Hlo2), (Hb1 hi2 Hhi2), (Hb2 lo1 Hlo1), (Hb2 hi1 Hhi1). lra.
Qed.

Lemma extent_nonneg P e : extent P e → (0 <= e)%Q.
Proof. intros (lo & hi & Hlo & Hhi & Hb & He). destruct (Hb lo Hlo). lra. Qed.

Lemma extent_ext (P1 P2 : Q → Prop) e :
  (∀ x, P1 x ↔ P2 x) → extent P1 e → extent P2 e.
Proof.
  intros HP (lo & hi & Hlo & Hhi & Hb & He). exists lo, hi.
  split_and!; [by apply HP|by apply HP| |done]. intros x Hx. by apply Hb, HP.
Qed.

Lemma elem_of_map_coords axis (ws : list Vector) x :
  x ∈ map axis ws ↔ coords axis (λ w, w ∈ ws) x.
Proof.
  unfold coords. change (map axis ws) with (axis <$> ws).
  rewrite list_elem_of_fmap. naive_solver.
Qed.

Lemma axis_extent axis (ws : list Vector) :
  ws ≠ [] →
  ∃ lo hi, py_min (map axis ws) = Ok lo ∧ py_max (map axis ws) = Ok hi ∧
           extent (coords axis (λ w, w ∈ ws)) (hi - lo)%Q.
Proof.
  intros Hne.
  assert (Hne' : map axis ws ≠ []) by (by destruct ws).
  destruct (py_min_spec _ Hne') as (lo & -> & Hlo & Hlob).
  destruct (py_max_spec _ Hne') as (hi & -> & Hhi & Hhib).
  exists lo, hi. split_and!; [done..|].
  exists lo, hi. split_and!.
  - by apply elem_of_map_coords.
  - by apply elem_of_map_coords.
  - intros x Hx%elem_of_map_coords. auto.
  - reflexivity.
Qed.

(** The volume is the product of the three extents of the positions. *)
Lemma bbox_volume_spec (ws : list Vector) :
  ws ≠ [] →
  ∃ vol sx sy sz,
    bbox_volume ws = Ok vol ∧
    extent (coords vx (λ w, w ∈ ws)) sx ∧
    extent (coords vy (λ w, w ∈ ws)) sy ∧
    extent (coords vz (λ w, w ∈ ws)) sz ∧
    vol = Qabs (sx * sy * sz) ∧ (vol == sx * sy * sz)%Q.
Proof.
  intros Hne. unfold bbox_volume.
  destruct (axis_extent vx ws Hne) as (lox & hix & -> & Hx & Hex).
  destruct (axis_extent vy ws Hne) as (loy & hiy & -> & Hy & Hey).
  destruct (axis_extent vz ws Hne) as (loz & hiz & -> & Hz & Hez).
  cbn [mbind result_bind]. rewrite Hx, Hy, Hz. cbn [mbind result_bind].
  eexists _, (hix - lox)%Q, (hiy - loy)%Q, (hiz - loz)%Q.
  split; [reflexivity|]. split_and!; [done..|reflexivity|].
  cbn [vec_sub vx vy vz]. apply Qabs_pos.
  apply extent_nonneg in Hex, Hey, Hez.
  apply Qmult_le_0_compat; [apply Qmult_le_0_compat|]; done.
Qed.

(** The order in which the positions are listed does not matter. *)
Lemma bbox_volume_order (ws1 ws2 : list Vector) vol1 vol2 :
  (∀ w, w ∈ ws1 ↔ w ∈ ws2) →
  bbox_volume ws1 = Ok vol1 → bbox_volume ws2 = Ok vol2 → (vol1 == vol2)%Q.
Proof.
  intros Hsame H1 H2.
  assert (Hne1 : ws1 ≠ []) by (by intros ->).
  assert (Hne2 : ws2 ≠ []) by (by intros ->).
  destruct (bbox_volume_spec ws1 Hne1) as (v1 & sx1 & sy1 & sz1 & E1 & X1 & Y1 & Z1 & _ & V1).
  destruct (bbox_volume_spec ws2 Hne2) as (v2 & sx2 & sy2 & sz2 & E2 & X2 & Y2 & Z2 & _ & V2).
  rewrite H1 in E1. rewrite H2 in E2. simplify_eq.
  assert (Hc : ∀ axis x, coords axis (λ w, w ∈ ws1) x ↔ coords axis (λ w, w ∈ ws2) x).
  { intros axis x. unfold coords. by setoid_rewrite Hsame. }
  rewrite V1, V2.
  rewrite (extent_unique _ _ _ (extent_ext _ _ _ (Hc vx) X1) X2).
  rewrite (extent_unique _ _ _ (extent_ext _ _ _ (Hc vy) Y1) Y2).
  rewrite (extent_unique _ _ _ (extent_ext _ _ _ (Hc vz) Z1) Z2).
  reflexivity.
Qed.

Lemma result_mapM_spec {A B} (f : A → result B) (l : list A) :
  (∀ a, a ∈ l → ∃ b, f a = Ok b) →
  ∃ bs, result_mapM f l = Ok bs ∧ Forall2 (λ a b, f a = Ok b) l bs.
Proof.
  induction l as [|a l IH]; intros Hok.
  - exists []. by split.
  - destruct (Hok a) as [b Hb]; [left|].
    destruct IH as (bs & Hbs & Hall); [intros a' Ha'; apply Hok; by right|].
    exists (b :: bs). simpl. rewrite Hb. cbn [mbind result_bind].
    rewrite Hbs. cbn [mbind result_bind]. split; [done|]. by constructor.
Qed.


Section Volume.
Context (mw : Matrix) (bm : BMesh).

Lemma world_coords_spec (comp : gset vert) :
  comp ⊆ all_verts bm →
  ∃ ws, result_mapM (world_co mw bm) (elements comp) = Ok ws ∧
        length ws = size comp ∧
        ∀ w, w ∈ ws ↔ world_pos mw bm comp w.
Proof.
  intros Hsub.
  destruct (result_mapM_spec (world_co mw bm) (elements comp)) as (ws & Hws & Hall).
  { intros v Hv%elem_of_elements%Hsub%all_verts_lt.
    apply lookup_lt_is_Some in Hv as [bv Hbv].
    exists (mat_mul_vec mw (co bv)). unfold world_co. by rewrite Hbv. }
  exists ws. split; [done|]. split.
  - apply Forall2_length in Hall. by rewrite <-Hall.
  - intros w. unfold world_pos. split.
    + intros Hw. apply list_elem_of_lookup in Hw as [i Hi].
      destruct (Forall2_lookup_r _ _ _ _ _ Hall Hi) as (v & Hv & Hco).
      unfold world_co in Hco. destruct (bm_verts bm !! v) as [bv|] eqn:Hbv; [|done].
      exists v, bv. split_and!; [|done|congruence].
      apply elem_of_elements. by eapply list_elem_of_lookup_2.
    + intros (v & bv & Hv & Hbv & ->).
      apply elem_of_elements, list_elem_of_lookup in Hv as [i Hi].
      destruct (Forall2_lookup_l _ _ _ _ _ Hall Hi) as (w & Hw & Hco).
      unfold world_co in Hco. rewrite Hbv in Hco. simplify_eq.
      by eapply list_elem_of_lookup_2.
Qed.

(** The volume of a non-empty component exists and is the product of the
    extents of its world-space positions along the three axes. *)
Lemma comp_volume_spec (comp : gset vert) :
  comp ≠ ∅ → comp ⊆ all_verts bm →
  ∃ vol sx sy sz,
    comp_volume mw bm comp = Ok vol ∧
    extent (coords vx (world_pos mw bm comp)) sx ∧
    extent (coords vy (world_pos mw bm comp)) sy ∧
    extent (coords vz (world_pos mw bm comp)) sz ∧
    vol = Qabs (sx * sy * sz) ∧ (vol == sx * sy * sz)%Q.
Proof.
  intros Hne Hsub. unfold comp_volume.
  destruct (world_coords_spec comp Hsub) as (ws & -> & Hlen & Hws).
  cbn [mbind result_bind].
  assert (Hne' : ws ≠ []).
  { intros ->. simpl in Hlen. symmetry in Hlen.
    by apply size_empty_inv, leibniz_equiv in Hlen. }
  destruct (bbox_volume_spec ws Hne') as (vol & sx & sy & sz & -> & X & Y & Z & Hv & Hv').
  assert (Hc : ∀ axis x, coords axis (λ w, w ∈ ws) x ↔ coords axis (world_pos mw bm comp) x).
  { intros axis x. unfold coords. by setoid_rewrite Hws. }
  exists vol, sx, sy, sz. split_and!; [done| | | |done..].
  - by apply (extent_ext _ _ _ (Hc vx)).
  - by apply (extent_ext _ _ _ (Hc vy)).
  - by apply (extent_ext _ _ _ (Hc vz)).
Qed.

Lemma comp_volume_component (c : gset vert) :
  is_component bm c → ∃ vol, comp_volume mw bm c = Ok vol.
Proof.
  intros (Hne & Hsub & _).
  destruct (comp_volume_spec c Hne Hsub) as (vol & _ & _ & _ & Hv & _). eauto.
Qed.
End Volume.

(** ** The selection loops in closed form *)

Lemma foldl_alter_lookup {A B} (f : A → A) (g : B → bool) (k : B → nat)
    (l : list B) (xs : list A) (i : nat) :
  (∀ x, f (f x) = f x) →
  foldl (λ xs b, if g b then alter f (k b) xs else xs) xs l !! i =
  (if existsb (λ b, g b && bool_decide (k b = i)) l then f else id) <$> xs !! i.
Proof.
  intros Hf. revert xs. induction l as [|b l IH]; intros xs.
  - simpl. by rewrite option_fmap_id.
  - cbn [foldl existsb]. rewrite IH. destruct (g b); simpl; [|done].
    case_bool_decide as Hk; simpl.
    + subst i. set (E := existsb _ l). rewrite list_lookup_alter_eq.
      destruct E, (xs !! k b); simpl; by rewrite ?Hf.
    + by rewrite list_lookup_alter_ne.
Qed.

Lemma foldl_bind {A B C} (g : A → C → A) (h : B → list C) (a : A) (l : list B) :
  foldl (λ a x, foldl g a (h x)) a l = foldl g a (l ≫= h).
Proof.
  revert a. induction l as [|x l IH]; intros a; [done|].
  cbn [foldl]. rewrite IH. change ((x :: l) ≫= h) with (h x ++ (l ≫= h)).
  by rewrite foldl_app.
Qed.

Lemma existsb_True {A} (p : A → bool) (l : list A) :
  existsb p l = true ↔ ∃ x, x ∈ l ∧ p x = true.
Proof.
  rewrite existsb_exists. by setoid_rewrite list_elem_of_In.
Qed.

Lemma existsb_same {A} (p : A → bool) (l1 l2 : list A) :
  (∀ x, x ∈ l1 ↔ x ∈ l2) → existsb p l1 = existsb p l2.
Proof.
  intros Hsame. apply eq_true_iff_eq. rewrite !existsb_True.
  by setoid_rewrite Hsame.
Qed.

Lemma mark_verts_ext h1 h2 vs :
  (∀ i, i < length vs → h1 i = h2 i) → mark_verts h1 vs = mark_verts h2 vs.
Proof.
  intros Hext. apply list_eq. intros i. unfold mark_verts.
  rewrite !list_lookup_imap. destruct (vs !! i) eqn:Hi; [|done]. simpl.
  rewrite Hext; [done|]. by eapply lookup_lt_Some.
Qed.

Lemma mark_edges_ext h1 h2 es :
  (∀ e, e ∈ es → h1 e = h2 e) → mark_edges h1 es = mark_edges h2 es.
Proof.
  intros Hext. apply map_ext_in. intros e He%list_elem_of_In. by rewrite Hext.
Qed.

Lemma mark_faces_ext h1 h2 fs :
  (∀ f, f ∈ fs → h1 f = h2 f) → mark_faces h1 fs = mark_faces h2 fs.
Proof.
  intros Hext. apply map_ext_in. intros f Hf%list_elem_of_In. by rewrite Hext.
Qed.

Lemma mark_verts_false vs : mark_verts (λ _, false) vs = vs.
Proof.
  apply list_eq. intros i. unfold mark_verts. rewrite list_lookup_imap.
  by destruct (vs !! i).
Qed.

Lemma mark_edges_false es : mark_edges (λ _, false) es = es.
Proof. unfold mark_edges. induction es; simpl; congruence. Qed.

Lemma mark_faces_false fs : mark_faces (λ _, false) fs = fs.
Proof. unfold mark_faces. induction fs; simpl; congruence. Qed.

Lemma mark_verts_twice h1 h2 vs :
  mark_verts h2 (mark_verts h1 vs) = mark_verts (λ i, h1 i || h2 i) vs.
Proof.
  apply list_eq. intros i. unfold mark_verts. rewrite !list_lookup_imap.
  destruct (vs !! i) as [v|]; [|done]. simpl. by destruct (h1 i), (h2 i).
Qed.

Lemma mark_edges_twice h1 h2 es :
  (∀ e, h2 (set_e_select true e) = h2 e) →
  mark_edges h2 (mark_edges h1 es) = mark_edges (λ e, h1 e || h2 e) es.
Proof.
  intros Hh. unfold mark_edges. rewrite map_map. apply map_ext. intros e.
  destruct (h1 e); simpl; [|done]. rewrite Hh. by destruct (h2 e).
Qed.

Lemma mark_faces_twice h1 h2 fs :
  (∀ f, h2 (set_f_select true f) = h2 f) →
  mark_faces h2 (mark_faces h1 fs) = mark_faces (λ f, h1 f || h2 f) fs.
Proof.
  intros Hh. unfold mark_faces. rewrite map_map. apply map_ext. intros f.
  destruct (h1 f); simpl; [|done]. rewrite Hh. by destruct (h2 f).
Qed.

Lemma select_comp_verts_closed (comp : gset vert) vs :
  select_comp_verts comp vs = mark_verts (λ i, bool_decide (i ∈ comp)) vs.
Proof.
  apply list_eq. intros i. unfold select_comp_verts, mark_verts.
  rewrite list_lookup_imap.
  rewrite (foldl_alter_lookup (set_v_select true) (λ _, true) id) by done.
  assert (existsb (λ b : nat, true && bool_decide (id b = i)) (elements comp)
          = bool_decide (i ∈ comp)) as ->.
  { apply eq_true_iff_eq. rewrite existsb_True, bool_decide_eq_true. split.
    - intros (x & Hx%elem_of_elements & Hxi). simpl in Hxi.
      apply bool_decide_eq_true in Hxi. unfold id in Hxi. by subst.
    - intros Hi. exists i. split; [by apply elem_of_elements|].
      simpl. by apply bool_decide_eq_true. }
  destruct (vs !! i); [|done]. simpl. by destruct (bool_decide (i ∈ comp)).
Qed.

Lemma select_comp_edges_closed bm (comp : gset vert) :
  select_comp_edges bm comp (bm_edges bm) = mark_edges (both_in comp) (bm_edges bm).
Proof.
  apply list_eq. intros j. unfold select_comp_edges, mark_edges.
  rewrite (foldl_bind (select_edge comp) (link_edges bm)).
  unfold select_edge.
  rewrite (foldl_alter_lookup (set_e_select true) (λ je, both_in comp je.2) fst) by done.
  change (map ?f ?l) with (f <$> l). rewrite list_lookup_fmap.
  destruct (bm_edges bm !! j) as [e|] eqn:Hj; [|done]. simpl.
  assert (existsb (λ b : nat * BMEdge, both_in comp b.2 && bool_decide (b.1 = j))
            (elements comp ≫= link_edges bm) = both_in comp e) as ->; [|by destruct (both_in comp e)].
  apply eq_true_iff_eq. rewrite existsb_True. split.
  - intros ([j' e'] & Hin & Hp). apply andb_true_iff in Hp as [Hb Hj'].
    apply bool_decide_eq_true in Hj'. simpl in *. subst j'.
    apply list_elem_of_bind in Hin as (v & Hin & _).
    apply elem_of_link_edges in Hin as [Hl _]. congruence.
  - intros Hb. exists (j, e). split; [|simpl; rewrite Hb; by apply bool_decide_eq_true].
    apply list_elem_of_bind. exists (e_verts e).1. split.
    + apply elem_of_link_edges. auto.
    + apply elem_of_elements. unfold both_in in Hb.
      apply andb_true_iff in Hb as [Hb _]. by apply bool_decide_eq_true in Hb.
Qed.

Lemma select_comp_closed mode (comp : gset vert) bm :
  select_comp mode comp bm =
  mkMesh
    (if use_verts mode then mark_verts (λ i, bool_decide (i ∈ comp)) (bm_verts bm)
     else bm_verts bm)
    (if use_edges mode then mark_edges (both_in comp) (bm_edges bm) else bm_edges bm)
    (if use_faces mode then mark_faces (all_in comp) (bm_faces bm) else bm_faces bm).
Proof.
  unfold select_comp. by rewrite select_comp_verts_closed, select_comp_edges_closed.
Qed.

Lemma select_matching_closed mode ranges bm pv :
  select_matching mode ranges bm pv =
  mkMesh
    (if use_verts mode then mark_verts (vert_hit ranges pv) (bm_verts bm) else bm_verts bm)
    (if use_edges mode then mark_edges (edge_hit ranges pv) (bm_edges bm) else bm_edges bm)
    (if use_faces mode then mark_faces (face_hit ranges pv) (bm_faces bm) else bm_faces bm).
Proof.
  unfold select_matching. revert bm. induction pv as [|[c vol] pv IH]; intros bm.
  - simpl. rewrite mark_verts_false, mark_edges_false, mark_faces_false.
    destruct bm, (use_verts mode), (use_edges mode), (use_faces mode); done.
  - cbn [foldl]. rewrite IH. cbn [fst snd].
    unfold vert_hit, edge_hit, face_hit. cbn [existsb fst snd].
    destruct (matched vol ranges); cbn [andb orb]; [|done].
    rewrite select_comp_closed. cbn [bm_verts bm_edges bm_faces].
    f_equal.
    + destruct (use_verts mode); [|done]. by rewrite mark_verts_twice.
    + destruct (use_edges mode); [|done]. rewrite mark_edges_twice; [done|].
      intros e. by destruct e.
    + destruct (use_faces mode); [|done]. rewrite mark_faces_twice; [done|].
      intros f. by destruct f.
Qed.

(** ** The whole operator in closed form *)

Section Closed.
Context (mode : SelectMode) (mw : Matrix) (bm : BMesh).
Context (ranges : list (option Q * option Q)).



Lemma comp_hit_same parts1 parts2 q :
  (∀ c, c ∈ parts1 ↔ c ∈ parts2) →
  comp_hit mw bm ranges parts1 q = comp_hit mw bm ranges parts2 q.
Proof. apply existsb_same. Qed.

Lemma hit_zip (q : gset vert → bool) parts volumes :
  Forall2 (λ c vol, comp_volume mw bm c = Ok vol) parts volumes →
  existsb (λ cv, matched cv.2 ranges && q cv.1) (zip parts volumes) =
  comp_hit mw bm ranges parts q.
Proof.
  unfold comp_hit. induction 1 as [|c vol parts volumes Hc _ IH]; [done|].
  cbn [zip zip_with existsb fst snd]. rewrite IH.
  assert (comp_matched mw bm ranges c = matched vol ranges) as ->; [|done].
  unfold comp_matched. by rewrite Hc.
Qed.

Lemma volumes_spec parts :
  Forall (is_component bm) parts →
  ∃ volumes, result_mapM (comp_volume mw bm) parts = Ok volumes ∧
             Forall2 (λ c vol, comp_volume mw bm c = Ok vol) parts volumes.
Proof.
  intros Hcomps. apply result_mapM_spec. intros c Hc.
  rewrite Forall_forall in Hcomps. by apply comp_volume_component, Hcomps.
Qed.

Lemma select_matching_zip parts volumes :
  Forall2 (λ c vol, comp_volume mw bm c = Ok vol) parts volumes →
  select_matching mode ranges (clear_selection mode bm) (zip parts volumes) =
  selected_mesh mode mw ranges parts bm.
Proof.
  intros Hvol. rewrite select_matching_closed. unfold selected_mesh.
  cbn [clear_selection bm_verts bm_edges bm_faces]. f_equal.
  - destruct (use_verts mode); [|done]. apply mark_verts_ext. intros i _.
    exact (hit_zip (λ c, bool_decide (i ∈ c)) parts volumes Hvol).
  - destruct (use_edges mode); [|done]. apply mark_edges_ext. intros e _.
    exact (hit_zip (λ c, both_in c e) parts volumes Hvol).
  - destruct (use_faces mode); [|done]. apply mark_faces_ext. intros f _.
    exact (hit_zip (λ c, all_in c f) parts volumes Hvol).
Qed.
End Closed.

(** The operator never raises: it returns the mesh with the flags that the
    matched components dictate. *)
Lemma execute_closed choices items mode mw bm :
  ∃ parts, extract_components choices bm = Ok parts ∧
           parts_inv bm ∅ parts ∧
           execute choices items mode mw bm =
             Ok (selected_mesh mode mw (build_ranges items) parts bm).
Proof.
  destruct (extract_components_spec bm choices) as (parts & Hparts & Hinv).
  exists parts. split_and!; [done..|].
  destruct (volumes_spec mw bm parts) as (volumes & Hvol & Hall); [apply Hinv|].
  unfold execute. rewrite Hparts. cbn [mbind result_bind].
  rewrite Hvol. cbn [mbind result_bind].
  by rewrite (select_matching_zip mode mw bm _ parts volumes Hall).
Qed.

(** ** The masks after the operator *)



Section Masks.
Context (mode : SelectMode) (mw : Matrix) (bm : BMesh).
Context (ranges : list (option Q * option Q)) (parts : list (gset vert)).

Lemma vert_mask_selected :
  use_verts mode = true →
  vert_mask (selected_mesh mode mw ranges parts bm) =
  imap (λ i _, comp_hit mw bm ranges parts (λ c, bool_decide (i ∈ c))) (bm_verts bm).
Proof.
  intros Hm. unfold vert_mask, selected_mesh. cbn [bm_verts]. rewrite Hm.
  apply list_eq. intros i. unfold mark_verts.
  change (map ?f ?l) with (f <$> l).
  rewrite list_lookup_fmap, !list_lookup_imap, list_lookup_fmap.
  destruct (bm_verts bm !! i) as [v|]; [|done]. simpl.
  by destruct (comp_hit _ _ _ _ _).
Qed.

Lemma edge_mask_selected :
  use_edges mode = true →
  edge_mask (selected_mesh mode mw ranges parts bm) =
  map (λ e, comp_hit mw bm ranges parts (λ c, both_in c e)) (bm_edges bm).
Proof.
  intros Hm. unfold edge_mask, selected_mesh, mark_edges. cbn [bm_edges].
  rewrite Hm, !map_map. apply map_ext. intros [p b]. simpl.
  unfold both_in. simpl. by destruct (comp_hit _ _ _ _ _).
Qed.

Lemma face_mask_selected :
  use_faces mode = true →
  face_mask (selected_mesh mode mw ranges parts bm) =
  map (λ f, comp_hit mw bm ranges parts (λ c, all_in c f)) (bm_faces bm).
Proof.
  intros Hm. unfold face_mask, selected_mesh, mark_faces. cbn [bm_faces].
  rewrite Hm, !map_map. apply map_ext. intros [p b]. simpl.
  unfold all_in. simpl. by destruct (comp_hit _ _ _ _ _).
Qed.




End Masks.

Lemma Some_bool_true (b : bool) : Some b = Some true ↔ b = true.
Proof. naive_solver. Qed.

(** ** Component extraction *)

Lemma parts_inv_partition bm parts :
  wf_mesh bm → parts_inv bm ∅ parts → is_partition bm parts.
Proof.
  intros Hwf Hinv. split_and!.
  - intros v Hv. destruct (parts_inv_cover bm parts v Hinv Hv) as (c & Hc & Hvc).
    apply list_elem_of_lookup in Hc as [i Hi]. exists i, c. split_and!; [done..|].
    intros j c' Hj Hvc'. by eapply parts_inv_index.
  - intros c Hc. destruct (parts_inv_elem bm parts c Hinv Hc) as (Hne & Hsub & Hconn & _).
    split_and!; [done| |done]. intros v Hv. by apply all_verts_lt, Hsub.
  - intros e c He Hc.
    destruct (parts_inv_elem bm parts c Hinv Hc) as (_ & _ & _ & Hclosed).
    assert (Hadj : adj bm (e_verts e).1 (e_verts e).2).
    { exists e. split; [done|]. left. by destruct (e_verts e). }
    destruct (wf_mesh_adj bm _ _ Hwf Hadj) as [H1 H2]. split; intros Hin.
    + by apply (Hclosed (e_verts e).1).
    + apply (Hclosed (e_verts e).2); [done|by apply adj_sym|done].
Qed.

(** C1. Whatever the order in which unvisited vertices are popped, the
    extraction returns, and it returns a partition of the vertices into
    maximal connected components: every vertex lies in exactly one returned
    component, every component is non-empty and connected under edge
    adjacency, no edge has its endpoints in different components; a mesh
    without vertices yields the empty list. *)
Theorem extract_components_partition (choices : list nat) (bm : BMesh) :
  wf_mesh bm →
  ∃ parts,
    extract_components choices bm = Ok parts ∧
    is_partition bm parts ∧
    (bm_verts bm = [] → parts = []).
Proof.
  intros Hwf. destruct (extract_components_spec bm choices) as (parts & Hparts & Hinv).
  exists parts. split_and!; [done|by apply parts_inv_partition|].
  intros Hnil. destruct parts as [|c parts]; [done|]. exfalso.
  destruct (parts_inv_elem bm (c :: parts) c Hinv) as (Hne & Hsub & _); [left|].
  apply set_choose_L in Hne as [v Hv]. apply Hsub, all_verts_lt in Hv.
  rewrite Hnil in Hv. simpl in Hv. lia.
Qed.

Lemma extract_components_partition_witness :
  ∃ parts,
    extract_components [3; 1] two_parts = Ok parts ∧
    is_partition two_parts parts ∧
    (bm_verts two_parts = [] → parts = []).
Proof. apply extract_components_partition. by_compute. Defined.

(** ** Range matching *)


Lemma matched_existsb vol ranges :
  matched vol ranges = existsb (in_range vol) ranges.
Proof.
  induction ranges as [|[vmin vmax] ranges IH]; [done|].
  cbn [matched existsb]. unfold in_range. cbn [fst snd]. rewrite IH.
  by destruct (below_min vol vmin), (above_max vol vmax).
Qed.







(** ** First match against any match *)

Lemma matched_matched_any vol ranges : matched vol ranges = matched_any vol ranges.
Proof.
  rewrite matched_existsb. unfold matched_any.
  induction ranges as [|[vmin vmax] ranges IH]; [done|]. cbn [existsb]. rewrite IH.
  f_equal. unfold in_range, range_holds, below_min, above_max, Qltb. cbn [fst snd].
  destruct vmin, vmax; by rewrite ?negb_involutive.
Qed.

Lemma build_ranges_bounds items items' :
  map bounds items = map bounds items' → build_ranges items = build_ranges items'.
Proof.
  intros Heq.
  assert (Hb : ∀ l, build_ranges l =
    map (λ b : bool * Q * bool * Q,
           (if b.1.1.1 then Some b.1.1.2 else None, if b.1.2 then Some b.2 else None))
        (map bounds l)).
  { intros l. unfold build_ranges. rewrite map_map. done. }
  by rewrite !Hb, Heq.
Qed.

(** C9. Stopping at the first matching range gives the same answer as
    asking whether any range matches, so the operator built on either
    returns the same mesh; and only the bounds of the items count, their
    labels do not. *)
Theorem first_match_is_any_match :
  (∀ vol ranges, matched vol ranges = matched_any vol ranges) ∧
  (∀ choices items mode mw bm,
     execute choices items mode mw bm = execute_any choices items mode mw bm) ∧
  (∀ choices items items' mode mw bm,
     map bounds items = map bounds items' →
     execute choices items mode mw bm = execute choices items' mode mw bm).
Proof.
  split_and!.
  - apply matched_matched_any.
  - intros choices items mode mw bm. unfold execute, execute_any.
    destruct (extract_components choices bm) as [parts|]; [|done].
    cbn [mbind result_bind].
    destruct (result_mapM (comp_volume mw bm) parts) as [volumes|]; [|done].
    cbn [mbind result_bind]. f_equal.
    unfold select_matching, select_matching_any.
    generalize (clear_selection mode bm). generalize (zip parts volumes).
    intros pv. induction pv as [|cv pv IH]; intros bm'; [done|].
    cbn [foldl]. by rewrite IH, matched_matched_any.
  - intros choices items items' mode mw bm Heq. unfold execute.
    by rewrite (build_ranges_bounds items items' Heq).
Qed.

(** ** Volumes *)

Lemma extent_flat P e :
  extent P e → (∀ x y, P x → P y → (x == y)%Q) → (e == 0)%Q.
Proof.
  intros (lo & hi & Hlo & Hhi & _ & He) Hflat. rewrite He, (Hflat hi lo) by done. ring.
Qed.

Lemma flat_coords axis P x y :
  flat axis P → coords axis P x → coords axis P y → (x == y)%Q.
Proof. intros Hflat (w & Hw & <-) (w' & Hw' & <-). by apply Hflat. Qed.





Lemma world_pos_singleton mw bm (comp : gset vert) w w' :
  size comp = 1 → world_pos mw bm comp w → world_pos mw bm comp w' → w = w'.
Proof.
  intros [v Hv%leibniz_equiv]%size_1_elem_of. subst comp.
  intros (v1 & bv1 & ->%elem_of_singleton & Hbv1 & ->).
  intros (v2 & bv2 & ->%elem_of_singleton & Hbv2 & ->). congruence.
Qed.

Lemma volume_flat_zero mw bm comp vol sx sy sz :
  extent (coords vx (world_pos mw bm comp)) sx →
  extent (coords vy (world_pos mw bm comp)) sy →
  extent (coords vz (world_pos mw bm comp)) sz →
  (vol == sx * sy * sz)%Q →
  flat vx (world_pos mw bm comp) ∨ flat vy (world_pos mw bm comp) ∨
  flat vz (world_pos mw bm comp) →
  (vol == 0)%Q.
Proof.
  intros X Y Z Hprod [Hf|[Hf|Hf]]; rewrite Hprod.
  - rewrite (extent_flat _ _ X); [ring|]. intros x y. by apply flat_coords.
  - rewrite (extent_flat _ _ Y); [ring|]. intros x y. by apply flat_coords.
  - rewrite (extent_flat _ _ Z); [ring|]. intros x y. by apply flat_coords.
Qed.

Lemma singleton_flat mw bm (comp : gset vert) axis :
  size comp = 1 → flat axis (world_pos mw bm comp).
Proof.
  intros Hone w w' Hw Hw'. by rewrite (world_pos_singleton mw bm comp w w').
Qed.





(** ** Meshes that differ in their selection flags only *)



Section SameGeometry.
Context (bm1 bm2 : BMesh) (Hgeo : same_geometry bm1 bm2).





End SameGeometry.





Lemma selected_mesh_geometry mode mw ranges parts bm :
  same_geometry (selected_mesh mode mw ranges parts bm) bm.
Proof.
  unfold same_geometry, selected_mesh. cbn [bm_verts bm_edges bm_faces]. split_and!.
  - destruct (use_verts mode); [|done]. apply list_eq. intros i.
    unfold mark_verts. change (map ?f ?l) with (f <$> l).
    rewrite !list_lookup_fmap, list_lookup_imap, list_lookup_fmap.
    destruct (bm_verts bm !! i) as [v|]; [|done]. simpl. by destruct (comp_hit _ _ _ _ _).
  - destruct (use_edges mode); [|done]. unfold mark_edges. rewrite !map_map.
    apply map_ext. intros e. simpl. by destruct (comp_hit _ _ _ _ _).
  - destruct (use_faces mode); [|done]. unfold mark_faces. rewrite !map_map.
    apply map_ext. intros f. simpl. by destruct (comp_hit _ _ _ _ _).
Qed.

Lemma Qltb_Qeq a a' b b' : (a == a')%Q → (b == b')%Q → Qltb a b = Qltb a' b'.
Proof.
  intros Ha Hb. apply eq_true_iff_eq. rewrite !Qltb_lt. split; lra.
Qed.

Lemma matched_Qeq vol vol' ranges :
  (vol == vol')%Q → matched vol ranges = matched vol' ranges.
Proof.
  intros Heq. induction ranges as [|[vmin vmax] ranges IH]; [done|].
  cbn [matched]. rewrite IH.
  assert (below_min vol vmin = below_min vol' vmin) as ->.
  { destruct vmin; [|done]. simpl. apply Qltb_Qeq; [done|reflexivity]. }
  assert (above_max vol vmax = above_max vol' vmax) as ->; [|done].
  destruct vmax; [|done]. simpl. apply Qltb_Qeq; [reflexivity|done].
Qed.

(** ** Selection masks *)







(** C8. The result does not depend on the order in which unvisited
    vertices are popped: two runs find the same components, and return the
    same mesh, hence the same masks. Nor does the order in which the
    vertices of a component are listed count: any listing of its world
    positions gives an equal volume, which the ranges treat alike. *)
Theorem execute_deterministic (choices1 choices2 : list nat)
    (items : list LS_ThresholdItem) (mode : SelectMode) (mw : Matrix) (bm : BMesh) :
  ∃ parts1 parts2 r,
    extract_components choices1 bm = Ok parts1 ∧
    extract_components choices2 bm = Ok parts2 ∧
    (∀ c, c ∈ parts1 ↔ c ∈ parts2) ∧
    execute choices1 items mode mw bm = Ok r ∧
    execute choices2 items mode mw bm = Ok r ∧
    (∀ c ws vol vol',
       c ∈ parts1 →
       (∀ w, w ∈ ws ↔ world_pos mw bm c w) →
       bbox_volume ws = Ok vol' →
       comp_volume mw bm c = Ok vol →
       (vol' == vol)%Q ∧
       matched vol' (build_ranges items) = matched vol (build_ranges items)).
Proof.
  destruct (execute_closed choices1 items mode mw bm) as (parts1 & Hparts1 & Hinv1 & Hexec1).
  destruct (execute_closed choices2 items mode mw bm) as (parts2 & Hparts2 & Hinv2 & Hexec2).
  assert (Hsame : ∀ c, c ∈ parts1 ↔ c ∈ parts2).
  { intros c. split; by apply (parts_inv_members bm). }
  exists parts1, parts2. eexists. split_and!; [done..| |].
  - rewrite Hexec2. f_equal. unfold selected_mesh. f_equal.
    + destruct (use_verts mode); [|done]. apply mark_verts_ext. intros i _.
      symmetry. by apply comp_hit_same.
    + destruct (use_edges mode); [|done]. apply mark_edges_ext. intros e _.
      symmetry. by apply comp_hit_same.
    + destruct (use_faces mode); [|done]. apply mark_faces_ext. intros f _.
      symmetry. by apply comp_hit_same.
  - intros c ws vol vol' Hc Hws Hvol' Hvol.
    assert (Heq : (vol' == vol)%Q); [|split; [done|by apply matched_Qeq]].
    destruct (parts_inv_elem bm parts1 c Hinv1 Hc) as (_ & Hsub & _).
    destruct (world_coords_spec mw bm c Hsub) as (ws0 & Hws0 & _ & Hpos).
    unfold comp_volume in Hvol. rewrite Hws0 in Hvol. cbn [mbind result_bind] in Hvol.
    apply (bbox_volume_order ws ws0); [|done..].
    intros w. by rewrite Hws, Hpos.
Qed.




(** ** Further properties of the operator *)

(** X1. The operator always returns, and what it returns differs from the mesh
    it was given in selection flags only. *)
Theorem execute_returns (choices : list nat) (items : list LS_ThresholdItem)
    (mode : SelectMode) (mw : Matrix) (bm : BMesh) :
  ∃ r, execute choices items mode mw bm = Ok r ∧ same_geometry r bm.
Proof.
  destruct (execute_closed choices items mode mw bm) as (parts & _ & _ & ->).
  eexists. split; [done|]. apply selected_mesh_geometry.
Qed.

(** X2. A vertex that no edge uses is a component of its own, of volume 0. *)
Theorem isolated_vertex (choices : list nat) (mw : Matrix) (bm : BMesh) (v : vert) :
  v < length (bm_verts bm) →
  (∀ e, e ∈ bm_edges bm → (e_verts e).1 ≠ v ∧ (e_verts e).2 ≠ v) →
  ∃ parts vol,
    extract_components choices bm = Ok parts ∧
    {[v]} ∈ parts ∧
    comp_volume mw bm {[v]} = Ok vol ∧ (vol == 0)%Q.
Proof.
  intros Hv Hfree.
  destruct (extract_components_spec bm choices) as (parts & Hparts & Hinv).
  destruct (parts_inv_cover bm parts v Hinv Hv) as (c & Hc & Hvc).
  destruct (parts_inv_elem bm parts c Hinv Hc) as (Hne & Hsub & Hconn & _).
  assert (c = {[v]}) as ->.
  { apply set_eq. intros u. rewrite elem_of_singleton. split; [|by intros ->].
    intros Hu. specialize (Hconn v u Hvc Hu).
    destruct (rtc_inv _ _ Hconn) as [->|(y & ((e & He & Hev) & _) & _)]; [done|].
    exfalso. destruct (Hfree e He) as [H1 H2].
    destruct Hev as [Hev|Hev]; rewrite Hev in *; simpl in *; congruence. }
  destruct (comp_volume_spec mw bm {[v]} Hne Hsub)
    as (vol & sx & sy & sz & Hvol & X & Y & Z & _ & Hprod).
  exists parts, vol. split_and!; [done..|].
  apply (volume_flat_zero mw bm {[v]} vol sx sy sz); [done..|].
  left. apply singleton_flat. apply size_singleton.
Qed.

Lemma isolated_vertex_witness :
  ∃ parts vol,
    extract_components [1] isolated_mesh = Ok parts ∧
    {[2]} ∈ parts ∧
    comp_volume scale2_matrix isolated_mesh {[2]} = Ok vol ∧ (vol == 0)%Q.
Proof.
  apply isolated_vertex.
  - simpl. lia.
  - intros e He. apply list_elem_of_singleton in He. subst e. simpl. lia.
Defined.

(** The scan goes on after a range that does not fit: with a range up to 1
    followed by a range from 2 up, a volume of 5 is matched (by the second
    range), and a volume of 3/2 by neither. *)
Example skip_and_continue :
  matched 5 (build_ranges [range_A; range_B]) = true ∧
  matched 5 (build_ranges [range_A]) = false ∧
  matched (3 # 2) (build_ranges [range_A; range_B]) = false.
Proof. by vm_compute. Qed.

(** The unit cube under a scale of 2 is one component of volume 8: a range
    from 5 to 10 selects all of it, a range from 9 up nothing. *)
Example cube_scenario :
  extract_components [] cube_mesh = Ok [cube_comp] ∧
  comp_volume scale2_matrix cube_mesh cube_comp = Ok 8%Q ∧
  (∃ r, execute [] [range_5_10] all_modes scale2_matrix cube_mesh = Ok r ∧
        vert_mask r = replicate 8 true ∧ edge_mask r = replicate 12 true ∧
        face_mask r = replicate 6 true) ∧
  (∃ r, execute [] [range_from_9] all_modes scale2_matrix cube_mesh = Ok r ∧
        vert_mask r = replicate 8 false ∧ edge_mask r = replicate 12 false ∧
        face_mask r = replicate 6 false).
Proof.
  split_and!; [by vm_compute..| |]; eexists; (split; [by vm_compute|]); by vm_compute.
Qed.

(** Two loose triangles in a plane across the z axis both have volume 0,
    and a range up to 0 selects both. *)
Example triangles_scenario :
  ∃ c1 c2 r,
    extract_components [] two_triangles = Ok [c1; c2] ∧
    comp_volume identity_matrix two_triangles c1 = Ok 0%Q ∧
    comp_volume identity_matrix two_triangles c2 = Ok 0%Q ∧
    execute [] [range_up_to_0] all_modes identity_matrix two_triangles = Ok r ∧
    vert_mask r = replicate 6 true ∧ edge_mask r = replicate 6 true ∧
    face_mask r = replicate 2 true.
Proof.
  do 3 eexists. split_and!; by vm_compute.
Qed.

(** ** Ranges as a set of bounds *)

Lemma bbox_volume_nonneg ws vol : bbox_volume ws = Ok vol → (0 <= vol)%Q.
Proof.
  unfold bbox_volume. intros H.
  repeat match type of H with
  | context [py_min ?l] =>
      destruct (py_min l); cbv beta iota delta [mbind result_bind] in H; [|done]
  | context [py_max ?l] =>
      destruct (py_max l); cbv beta iota delta [mbind result_bind] in H; [|done]
  end.
  assert (Hok : ∀ a b : Q, Ok a = Ok b → a = b) by congruence.
  apply Hok in H. subst vol. apply Qabs_nonneg.
Qed.

Lemma comp_volume_nonneg mw bm c vol : comp_volume mw bm c = Ok vol → (0 <= vol)%Q.
Proof.
  unfold comp_volume. destruct (result_mapM _ _) as [ws|]; [|done].
  apply bbox_volume_nonneg.
Qed.

(** Two lists of ranges that match the same volumes select the same. *)
Lemma selected_mesh_matched_ext mode mw bm ranges ranges' parts :
  (∀ vol, (0 <= vol)%Q → matched vol ranges = matched vol ranges') →
  selected_mesh mode mw ranges parts bm = selected_mesh mode mw ranges' parts bm.
Proof.
  intros Hsame.
  assert (Hhit : ∀ q, comp_hit mw bm ranges parts q = comp_hit mw bm ranges' parts q).
  { intros q. unfold comp_hit. induction parts as [|c parts IH]; [done|].
    cbn [existsb]. rewrite IH. f_equal. f_equal. unfold comp_matched.
    destruct (comp_volume mw bm c) as [vol|] eqn:Hvol; [|done].
    apply Hsame. by eapply comp_volume_nonneg. }
  unfold selected_mesh. f_equal.
  - destruct (use_verts mode); [|done]. apply mark_verts_ext. intros i _. apply Hhit.
  - destruct (use_edges mode); [|done]. apply mark_edges_ext. intros e _. apply Hhit.
  - destruct (use_faces mode); [|done]. apply mark_faces_ext. intros f _. apply Hhit.
Qed.

Lemma execute_matched_ext choices items items' mode mw bm :
  (∀ vol, (0 <= vol)%Q →
     matched vol (build_ranges items) = matched vol (build_ranges items')) →
  execute choices items mode mw bm = execute choices items' mode mw bm.
Proof.
  intros Hsame.
  destruct (execute_closed choices items mode mw bm) as (parts & Hparts & _ & ->).
  destruct (execute_closed choices items' mode mw bm) as (parts' & Hparts' & _ & ->).
  rewrite Hparts in Hparts'. injection Hparts' as <-.
  f_equal. by apply selected_mesh_matched_ext.
Qed.

Lemma build_ranges_alt items :
  build_ranges items =
  map (λ b : bool * Q * bool * Q,
         (if b.1.1.1 then Some b.1.1.2 else None, if b.1.2 then Some b.2 else None))
      (map bounds items).
Proof. unfold build_ranges. by rewrite map_map. Qed.

(** X3. What the operator selects depends on the ranges only through the
    set of their bounds: the order of the ranges, repetitions and labels
    do not count. *)
Theorem ranges_as_set (choices : list nat) (items items' : list LS_ThresholdItem)
    (mode : SelectMode) (mw : Matrix) (bm : BMesh) :
  (∀ b, b ∈ map bounds items ↔ b ∈ map bounds items') →
  execute choices items mode mw bm = execute choices items' mode mw bm.
Proof.
  intros Hset. apply execute_matched_ext. intros vol _.
  rewrite !matched_existsb, !build_ranges_alt. apply existsb_same.
  intros r. change (map ?f ?l) with (f <$> l).
  rewrite !list_elem_of_fmap. by setoid_rewrite Hset.
Qed.

Lemma ranges_as_set_witness :
  execute [3; 1] [small_range; range_5_10] all_modes identity_matrix two_parts =
  execute [3; 1] [range_5_10; set_label "again" small_range; small_range] all_modes
    identity_matrix two_parts.
Proof.
  apply ranges_as_set. intros b. simpl. rewrite !elem_of_cons, !elem_of_nil. tauto.
Defined.

(** X4. The selection for two lists of ranges put together is the union
    of the selections for each: an element is selected with [items1 ++
    items2] exactly when it is with [items1] or with [items2]. So adding a
    range never deselects anything. *)
Theorem selection_is_union (choices : list nat) (items1 items2 : list LS_ThresholdItem)
    (mode : SelectMode) (mw : Matrix) (bm : BMesh) :
  ∃ r1 r2 r,
    execute choices items1 mode mw bm = Ok r1 ∧
    execute choices items2 mode mw bm = Ok r2 ∧
    execute choices (items1 ++ items2) mode mw bm = Ok r ∧
    (use_verts mode = true → ∀ i,
       vert_mask r !! i = Some true ↔
       vert_mask r1 !! i = Some true ∨ vert_mask r2 !! i = Some true) ∧
    (use_edges mode = true → ∀ j,
       edge_mask r !! j = Some true ↔
       edge_mask r1 !! j = Some true ∨ edge_mask r2 !! j = Some true) ∧
    (use_faces mode = true → ∀ k,
       face_mask r !! k = Some true ↔
       face_mask r1 !! k = Some true ∨ face_mask r2 !! k = Some true).
Proof.
  destruct (execute_closed choices items1 mode mw bm) as (parts & Hparts & _ & ->).
  destruct (execute_closed choices items2 mode mw bm) as (parts2 & Hparts2 & _ & ->).
  destruct (execute_closed choices (items1 ++ items2) mode mw bm) as (parts3 & Hparts3 & _ & ->).
  rewrite Hparts in Hparts2, Hparts3. injection Hparts2 as <-. injection Hparts3 as <-.
  assert (Hhit : ∀ q,
    comp_hit mw bm (build_ranges (items1 ++ items2)) parts q =
    comp_hit mw bm (build_ranges items1) parts q ||
    comp_hit mw bm (build_ranges items2) parts q).
  { intros q. clear Hparts. unfold comp_hit. induction parts as [|c parts' IH]; [done|].
    cbn [existsb]. rewrite IH.
    assert (comp_matched mw bm (build_ranges (items1 ++ items2)) c =
            comp_matched mw bm (build_ranges items1) c ||
            comp_matched mw bm (build_ranges items2) c) as ->.
    { unfold comp_matched. destruct (comp_volume mw bm c) as [vol|]; [|done].
      rewrite !matched_existsb. unfold build_ranges. by rewrite map_app, existsb_app. }
    repeat match goal with |- context [existsb ?f ?l] =>
      let b := fresh "b" in generalize (existsb f l); intros b end.
    destruct (comp_matched mw bm (build_ranges items1) c),
      (comp_matched mw bm (build_ranges items2) c), (q c);
      repeat match goal with b : bool |- _ => destruct b end; done. }
  do 3 eexists. split_and!; [done..| | |].
  - intros Hm i. rewrite !vert_mask_selected, !list_lookup_imap by done.
    destruct (bm_verts bm !! i); simpl; [|naive_solver].
    rewrite !Some_bool_true, Hhit. apply orb_true_iff.
  - intros Hm j. rewrite !edge_mask_selected by done.
    change (map ?f ?l) with (f <$> l). rewrite !list_lookup_fmap.
    destruct (bm_edges bm !! j); simpl; [|naive_solver].
    rewrite !Some_bool_true, Hhit. apply orb_true_iff.
  - intros Hm k. rewrite !face_mask_selected by done.
    change (map ?f ?l) with (f <$> l). rewrite !list_lookup_fmap.
    destruct (bm_faces bm !! k); simpl; [|naive_solver].
    rewrite !Some_bool_true, Hhit. apply orb_true_iff.
Qed.

(** X5. A volume is never negative, so a range whose minimum is disabled
    selects what it would select with its minimum enabled at 0. *)
Theorem disabled_min_starts_from_zero (choices : list nat)
    (items : list LS_ThresholdItem) (mode : SelectMode) (mw : Matrix) (bm : BMesh) :
  (∀ c vol, comp_volume mw bm c = Ok vol → (0 <= vol)%Q) ∧
  execute choices (map min_from_zero items) mode mw bm =
  execute choices items mode mw bm.
Proof.
  split; [intros c vol; apply comp_volume_nonneg|].
  apply execute_matched_ext. intros vol Hvol.
  rewrite !matched_existsb. unfold build_ranges. rewrite map_map.
  induction items as [|item items IH]; [done|]. cbn [map existsb]. rewrite IH.
  f_equal. unfold min_from_zero, in_range.
  destruct (use_min item) eqn:Hmin; [by rewrite Hmin|].
  cbn [use_min min_value use_max max_value fst snd below_min].
  assert (Qltb vol 0 = false) as -> by (by apply Qltb_ge). done.
Qed.

(** ** Faces, edges and vertices together *)








(** ** World scale and translation *)





(** ** The list of ranges and its buttons *)

Lemma alter_last {A} (f : A → A) (l : list A) (d : A) :
  alter f (length l) (l ++ [d]) = l ++ [f d].
Proof. induction l as [|x l IH]; [done|]. simpl. by f_equal. Qed.

Lemma add_range_eq scn :
  add_range scn =
  mkScene (ls_ranges scn ++ [fresh_item (length (ls_ranges scn))])
          (Z.of_nat (length (ls_ranges scn))).
Proof.
  unfold add_range, coll_add, fresh_item. cbv zeta.
  rewrite length_alter, length_app. cbn [length].
  replace (length (ls_ranges scn) + 1 - 1) with (length (ls_ranges scn)) by lia.
  replace (length (ls_ranges scn) + 1) with (S (length (ls_ranges scn))) by lia.
  rewrite alter_last. f_equal. lia.
Qed.

Lemma panel_item_in scn i item :
  ls_ranges_index scn = Z.of_nat i → ls_ranges scn !! i = Some item →
  panel_item scn = Ok (Some item).
Proof.
  intros Hidx Hi. unfold panel_item. rewrite Hidx, Nat2Z.id, Hi.
  apply lookup_lt_Some in Hi.
  destruct (Z.leb_spec 0 (Z.of_nat i)); [|lia].
  destruct (Z.ltb_spec (Z.of_nat i) (Z.of_nat (length (ls_ranges scn)))); [done|lia].
Qed.

Lemma panel_item_out scn :
  (ls_ranges_index scn < 0 ∨ Z.of_nat (length (ls_ranges scn)) ≤ ls_ranges_index scn)%Z →
  panel_item scn = Ok None.
Proof.
  intros Hout. unfold panel_item.
  destruct (Z.leb_spec 0 (ls_ranges_index scn)); [|done].
  destruct (Z.ltb_spec (ls_ranges_index scn) (Z.of_nat (length (ls_ranges scn)))); [lia|done].
Qed.

Lemma index_ok_alt scn :
  index_ok scn ↔
  (ls_ranges scn = [] ∧ ls_ranges_index scn = (-1)%Z) ∨
  (0 ≤ ls_ranges_index scn < Z.of_nat (length (ls_ranges scn)))%Z.
Proof.
  unfold index_ok. destruct (ls_ranges scn) as [|x l]; cbn [length].
  - split; [by left|]. intros [[_ ?]|?]; [done|lia].
  - split; [by right|]. by intros [[? _]|?].
Qed.

Lemma ranges_poll_true scn :
  ranges_poll scn = true ↔ ls_ranges scn ≠ [] ∧ (0 ≤ ls_ranges_index scn)%Z.
Proof.
  unfold ranges_poll. destruct (ls_ranges scn); [naive_solver|].
  rewrite Z.leb_le. naive_solver.
Qed.



(** X10. [Remove Range], run when its [poll] allows and the index is that
    of an item, takes exactly that item out and keeps the others in order.
    Afterwards the active range is the one that came before the removed
    one, or the one that came after it when the first was removed; the
    index is valid again, and -1 when no range is left. *)
Theorem remove_range_active (scn : Scene) :
  ranges_poll scn = true →
  (ls_ranges_index scn < Z.of_nat (length (ls_ranges scn)))%Z →
  ls_ranges (remove_range scn) = delete (Z.to_nat (ls_ranges_index scn)) (ls_ranges scn) ∧
  length (ls_ranges (remove_range scn)) = length (ls_ranges scn) - 1 ∧
  index_ok (remove_range scn) ∧
  panel_item (remove_range scn) =
    Ok (ls_ranges scn !! (if decide (ls_ranges_index scn = 0%Z)
                          then 1 else Z.to_nat (ls_ranges_index scn) - 1)).
Proof.
  intros [Hne Hidx]%ranges_poll_true Hlt.
  destruct scn as [l idx]. cbn [ls_ranges ls_ranges_index] in *.
  unfold remove_range, coll_remove. cbn [ls_ranges ls_ranges_index].
  rewrite bool_decide_eq_true_2 by lia.
  assert (Hsome : is_Some (l !! Z.to_nat idx)) by (apply lookup_lt_is_Some; lia).
  pose proof (length_delete l (Z.to_nat idx) Hsome) as Hlen.
  assert (0 < length l) by lia.
  split_and!; [done..| |].
  - apply index_ok_alt. cbn [ls_ranges ls_ranges_index]. rewrite Hlen.
    destruct (decide (length l = 1)) as [H1|H1].
    + left. split; [|lia]. apply nil_length_inv. lia.
    + right. lia.
  - case_decide as H0.
    + subst idx. change (Z.to_nat 0) with 0 in *.
      destruct (l !! 1) as [item|] eqn:H1.
      * apply (panel_item_in _ 0); cbn [ls_ranges ls_ranges_index].
        -- apply lookup_lt_Some in H1. lia.
        -- by rewrite list_lookup_delete_ge by lia.
      * apply panel_item_out. cbn [ls_ranges ls_ranges_index].
        apply lookup_ge_None in H1. lia.
    + destruct (l !! (Z.to_nat idx - 1)) as [item|] eqn:H1.
      * apply (panel_item_in _ (Z.to_nat idx - 1)); cbn [ls_ranges ls_ranges_index].
        -- lia.
        -- by rewrite list_lookup_delete_lt by lia.
      * apply lookup_ge_None in H1. lia.
Qed.

Lemma remove_range_active_witness :
  ls_ranges (remove_range (run_ops [AddRange; AddRange; AddRange; MoveRange UP] registered)) =
    delete 1 (ls_ranges (run_ops [AddRange; AddRange; AddRange; MoveRange UP] registered)) ∧
  panel_item (remove_range (run_ops [AddRange; AddRange; AddRange; MoveRange UP] registered)) =
    Ok (Some (fresh_item 0)).
Proof.
  destruct (remove_range_active
              (run_ops [AddRange; AddRange; AddRange; MoveRange UP] registered))
    as (H1 & _ & _ & H4).
  - reflexivity.
  - vm_compute. reflexivity.
  - split; [exact H1|]. rewrite H4. reflexivity.
Defined.

Lemma list_move_cons {A} (i j : nat) (x : A) (l : list A) :
  list_move (S i) (S j) (x :: l) = x :: list_move i j l.
Proof. unfold list_move. cbn [lookup list_lookup]. by destruct (l !! i). Qed.

Lemma list_move_up {A} (l1 : list A) a b l2 :
  list_move (S (length l1)) (length l1) (l1 ++ a :: b :: l2) = l1 ++ b :: a :: l2.
Proof.
  induction l1 as [|x l1 IH]; [done|].
  cbn [length app]. by rewrite list_move_cons, IH.
Qed.

Lemma list_move_down {A} (l1 : list A) a b l2 :
  list_move (length l1) (S (length l1)) (l1 ++ a :: b :: l2) = l1 ++ b :: a :: l2.
Proof.
  induction l1 as [|x l1 IH]; [done|].
  cbn [length app]. by rewrite list_move_cons, IH.
Qed.

Lemma list_split_adjacent {A} (l : list A) i a b :
  l !! i = Some a → l !! S i = Some b →
  ∃ l1 l2, l = l1 ++ a :: b :: l2 ∧ length l1 = i.
Proof.
  revert i. induction l as [|x l IH]; intros i Ha Hb; [done|].
  destruct i as [|i].
  - destruct l as [|y l]; [done|]. simpl in *. simplify_eq. by exists [], l.
  - destruct (IH i Ha Hb) as (l1 & l2 & -> & <-). by exists (x :: l1), l2.
Qed.

Lemma list_move_Permutation {A} (i j : nat) (l : list A) : list_move i j l ≡ₚ l.
Proof.
  unfold list_move. destruct (l !! i) as [x|] eqn:Hi; [|done]. cbv zeta.
  rewrite (delete_Permutation l i x Hi) at 3.
  rewrite <-Permutation_middle. by rewrite take_drop.
Qed.

Lemma coll_move_Permutation {A} (i j : Z) (l : list A) : coll_move i j l ≡ₚ l.
Proof. unfold coll_move. case_bool_decide; [apply list_move_Permutation|done]. Qed.

Lemma move_range_ranges direction scn :
  ls_ranges (move_range direction scn) ≡ₚ ls_ranges scn.
Proof.
  unfold move_range. destruct direction.
  - destruct (0 <? ls_ranges_index scn)%Z; [apply coll_move_Permutation|done].
  - destruct (ls_ranges_index scn <? _)%Z; [apply coll_move_Permutation|done].
Qed.

(** What [Move Up] does to a scene whose active item has a predecessor. *)
Lemma move_up_swap l1 a b l2 :
  move_range UP (mkScene (l1 ++ a :: b :: l2) (Z.of_nat (S (length l1)))) =
  mkScene (l1 ++ b :: a :: l2) (Z.of_nat (length l1)).
Proof.
  unfold move_range. cbn [ls_ranges ls_ranges_index].
  destruct (Z.ltb_spec 0 (Z.of_nat (S (length l1)))); [|lia].
  unfold coll_move. rewrite bool_decide_eq_true_2.
  - replace (Z.to_nat (Z.of_nat (S (length l1)))) with (S (length l1)) by lia.
    replace (Z.to_nat (Z.of_nat (S (length l1)) - 1)) with (length l1) by lia.
    rewrite list_move_up. f_equal. lia.
  - rewrite length_app. cbn [length]. lia.
Qed.

(** What [Move Down] does to a scene whose active item has a successor. *)
Lemma move_down_swap l1 a b l2 :
  move_range DOWN (mkScene (l1 ++ a :: b :: l2) (Z.of_nat (length l1))) =
  mkScene (l1 ++ b :: a :: l2) (Z.of_nat (S (length l1))).
Proof.
  unfold move_range. cbn [ls_ranges ls_ranges_index].
  assert (Hlen : length (l1 ++ a :: b :: l2) = length l1 + S (S (length l2))).
  { rewrite length_app. done. }
  destruct (Z.ltb_spec (Z.of_nat (length l1))
              (Z.of_nat (length (l1 ++ a :: b :: l2)) - 1)); [|lia].
  unfold coll_move. rewrite bool_decide_eq_true_2 by lia.
  replace (Z.to_nat (Z.of_nat (length l1))) with (length l1) by lia.
  replace (Z.to_nat (Z.of_nat (length l1) + 1)) with (S (length l1)) by lia.
  rewrite list_move_down. f_equal. lia.
Qed.

Lemma scene_split_up scn :
  index_ok scn → (0 < ls_ranges_index scn)%Z →
  ∃ l1 a b l2, scn = mkScene (l1 ++ a :: b :: l2) (Z.of_nat (S (length l1))).
Proof.
  intros [[_ ?]|Hok]%index_ok_alt Hpos; [lia|]. destruct scn as [l idx].
  cbn [ls_ranges ls_ranges_index] in *.
  destruct (lookup_lt_is_Some_2 l (Z.to_nat idx - 1)) as [a Ha]; [lia|].
  destruct (lookup_lt_is_Some_2 l (S (Z.to_nat idx - 1))) as [b Hb]; [lia|].
  destruct (list_split_adjacent l _ a b Ha Hb) as (l1 & l2 & -> & Hlen).
  exists l1, a, b, l2. f_equal. lia.
Qed.

Lemma scene_split_down scn :
  index_ok scn →
  (ls_ranges_index scn < Z.of_nat (length (ls_ranges scn)) - 1)%Z →
  ∃ l1 a b l2, scn = mkScene (l1 ++ a :: b :: l2) (Z.of_nat (length l1)).
Proof.
  intros [[-> ->]|Hok]%index_ok_alt Hlt; [simpl in Hlt; lia|]. destruct scn as [l idx].
  cbn [ls_ranges ls_ranges_index] in *.
  destruct (lookup_lt_is_Some_2 l (Z.to_nat idx)) as [a Ha]; [lia|].
  destruct (lookup_lt_is_Some_2 l (S (Z.to_nat idx))) as [b Hb]; [lia|].
  destruct (list_split_adjacent l _ a b Ha Hb) as (l1 & l2 & -> & Hlen).
  exists l1, a, b, l2. f_equal. lia.
Qed.

Lemma index_ok_middle l1 (a : LS_ThresholdItem) l2 :
  index_ok (mkScene (l1 ++ a :: l2) (Z.of_nat (length l1))).
Proof.
  apply index_ok_alt. right. cbn [ls_ranges ls_ranges_index].
  rewrite length_app. cbn [length]. lia.
Qed.

Lemma panel_item_middle l1 (a : LS_ThresholdItem) l2 :
  panel_item (mkScene (l1 ++ a :: l2) (Z.of_nat (length l1))) = Ok (Some a).
Proof. apply (panel_item_in _ (length l1)); [done|]. apply list_lookup_middle. done. Qed.

Lemma move_range_up_end scn :
  (ls_ranges_index scn ≤ 0)%Z → move_range UP scn = scn.
Proof.
  intros Hle. unfold move_range.
  by destruct (Z.ltb_spec 0 (ls_ranges_index scn)); [lia|].
Qed.

Lemma move_range_down_end scn :
  (Z.of_nat (length (ls_ranges scn)) - 1 ≤ ls_ranges_index scn)%Z →
  move_range DOWN scn = scn.
Proof.
  intros Hle. unfold move_range.
  by destruct (Z.ltb_spec (ls_ranges_index scn)
                 (Z.of_nat (length (ls_ranges scn)) - 1)); [lia|].
Qed.

Lemma move_range_active direction scn :
  index_ok scn →
  index_ok (move_range direction scn) ∧
  panel_item (move_range direction scn) = panel_item scn.
Proof.
  intros Hok. destruct direction.
  - destruct (decide (0 < ls_ranges_index scn)%Z) as [Hpos|Hnpos].
    + destruct (scene_split_up scn Hok Hpos) as (l1 & a & b & l2 & ->).
      rewrite move_up_swap. split; [apply index_ok_middle|].
      rewrite panel_item_middle.
      change (l1 ++ a :: b :: l2) with (l1 ++ [a] ++ b :: l2).
      rewrite app_assoc.
      replace (S (length l1)) with (length (l1 ++ [a]))
        by (rewrite length_app; simpl; lia).
      by rewrite panel_item_middle.
    + by rewrite move_range_up_end by lia.
  - destruct (decide (ls_ranges_index scn <
                      Z.of_nat (length (ls_ranges scn)) - 1)%Z) as [Hlt|Hnlt].
    + destruct (scene_split_down scn Hok Hlt) as (l1 & a & b & l2 & ->).
      rewrite move_down_swap, (panel_item_middle l1 a).
      change (l1 ++ b :: a :: l2) with (l1 ++ [b] ++ a :: l2).
      rewrite app_assoc.
      replace (S (length l1)) with (length (l1 ++ [b]))
        by (rewrite length_app; simpl; lia).
      split; [apply index_ok_middle|apply panel_item_middle].
    + by rewrite move_range_down_end by lia.
Qed.

(** X11. [Move Up] and [Move Down] exchange the active range with its
    neighbour and leave the other ranges where they are; the active range
    stays the same item, the index stays valid, and at the end of the list
    the button does nothing. *)
Theorem move_range_swaps (direction : Direction) (scn : Scene) :
  index_ok scn →
  index_ok (move_range direction scn) ∧
  panel_item (move_range direction scn) = panel_item scn ∧
  ((0 < ls_ranges_index scn)%Z →
     ∃ l1 a b l2,
       ls_ranges scn = l1 ++ a :: b :: l2 ∧
       ls_ranges_index scn = Z.of_nat (S (length l1)) ∧
       move_range UP scn = mkScene (l1 ++ b :: a :: l2) (Z.of_nat (length l1))) ∧
  ((ls_ranges_index scn < Z.of_nat (length (ls_ranges scn)) - 1)%Z →
     ∃ l1 a b l2,
       ls_ranges scn = l1 ++ a :: b :: l2 ∧
       ls_ranges_index scn = Z.of_nat (length l1) ∧
       move_range DOWN scn = mkScene (l1 ++ b :: a :: l2) (Z.of_nat (S (length l1)))) ∧
  ((ls_ranges_index scn ≤ 0)%Z → move_range UP scn = scn) ∧
  ((Z.of_nat (length (ls_ranges scn)) - 1 ≤ ls_ranges_index scn)%Z →
     move_range DOWN scn = scn).
Proof.
  intros Hok. destruct (move_range_active direction scn Hok) as [H1 H2].
  split_and!; [done..| | |apply move_range_up_end|apply move_range_down_end].
  - intros Hpos. destruct (scene_split_up scn Hok Hpos) as (l1 & a & b & l2 & ->).
    exists l1, a, b, l2. split_and!; [done..|apply move_up_swap].
  - intros Hlt. destruct (scene_split_down scn Hok Hlt) as (l1 & a & b & l2 & ->).
    exists l1, a, b, l2. split_and!; [done..|apply move_down_swap].
Qed.

Lemma move_range_swaps_witness :
  index_ok (move_range UP three_ranges) ∧
  panel_item (move_range UP three_ranges) = panel_item three_ranges.
Proof.
  destruct (move_range_swaps UP three_ranges) as (H1 & H2 & _).
  - vm_compute. split; [discriminate|reflexivity].
  - by split.
Defined.

(** X12. [Move Up] followed by [Move Down] puts every range and the index
    back where they were, whenever the first of the two moves anything; and
    so does [Move Down] followed by [Move Up]. *)
Theorem move_range_round_trip (scn : Scene) :
  index_ok scn →
  ((0 < ls_ranges_index scn)%Z → move_range DOWN (move_range UP scn) = scn) ∧
  ((ls_ranges_index scn < Z.of_nat (length (ls_ranges scn)) - 1)%Z →
     move_range UP (move_range DOWN scn) = scn).
Proof.
  intros Hok. split.
  - intros Hpos. destruct (scene_split_up scn Hok Hpos) as (l1 & a & b & l2 & ->).
    by rewrite move_up_swap, move_down_swap.
  - intros Hlt. destruct (scene_split_down scn Hok Hlt) as (l1 & a & b & l2 & ->).
    by rewrite move_down_swap, move_up_swap.
Qed.

Lemma move_range_round_trip_witness :
  move_range DOWN (move_range UP three_ranges) = three_ranges ∧
  move_range UP (move_range DOWN three_ranges) = three_ranges.
Proof.
  destruct (move_range_round_trip three_ranges) as (H1 & H2).
  - vm_compute. split; [discriminate|reflexivity].
  - split; [apply H1|apply H2]; vm_compute; reflexivity.
Defined.

(** X13. Reordering the ranges with [Move Up] or [Move Down] never changes
    what [Select by Threshold Ranges] selects. *)
Theorem move_range_keeps_selection (direction : Direction) (scn : Scene)
    (choices : list nat) (mode : SelectMode) (mw : Matrix) (bm : BMesh) :
  execute choices (ls_ranges (move_range direction scn)) mode mw bm =
  execute choices (ls_ranges scn) mode mw bm.
Proof.
  apply execute_matched_ext. intros vol _.
  rewrite !matched_existsb. apply existsb_same. intros r.
  unfold build_ranges. change (map ?f ?l) with (f <$> l).
  by rewrite (move_range_ranges direction scn).
Qed.

Lemma remove_range_index_ok scn : index_ok (remove_range scn).
Proof.
  destruct scn as [l idx]. unfold remove_range, coll_remove.
  cbn [ls_ranges ls_ranges_index]. apply index_ok_alt. cbn [ls_ranges ls_ranges_index].
  case_bool_decide as Hin.
  - assert (Hsome : is_Some (l !! Z.to_nat idx)) by (apply lookup_lt_is_Some; lia).
    pose proof (length_delete l (Z.to_nat idx) Hsome) as Hlen. rewrite Hlen.
    destruct (decide (length l = 1)) as [H1|H1].
    + left. split; [|lia]. apply nil_length_inv. lia.
    + right. lia.
  - destruct l as [|x l].
    + left. split; [done|]. cbn [length]. lia.
    + right. cbn [length]. lia.
Qed.

(** X14. Whatever buttons are pressed, in whatever order, after
    registration, the index is that of a range of the list, or -1 when the
    list is empty. The panel never reads outside the list, and shows the
    settings of a range exactly when there is one. *)
Theorem index_stays_valid (ops : list Op) :
  index_ok (run_ops ops registered) ∧
  (∀ scn, index_ok scn → index_ok (run_ops ops scn)) ∧
  (∀ scn, ∃ shown, panel_item scn = Ok shown) ∧
  (∀ scn, index_ok scn → (panel_item scn = Ok None ↔ ls_ranges scn = [])).
Proof.
  assert (Hstep : ∀ scn op, index_ok scn → index_ok (run_op scn op)).
  { intros scn op Hok. destruct op as [| |direction]; cbn [run_op].
    - rewrite add_range_eq. apply index_ok_alt. right.
      cbn [ls_ranges ls_ranges_index]. rewrite length_app. cbn [length]. lia.
    - destruct (ranges_poll scn); [apply remove_range_index_ok|done].
    - destruct (ranges_poll scn); [|done].
      by apply (move_range_active direction scn). }
  assert (Hall : ∀ scn, index_ok scn → index_ok (run_ops ops scn)).
  { unfold run_ops. induction ops as [|op ops IH]; intros scn Hok; [done|].
    cbn [foldl]. apply IH. by apply Hstep. }
  split_and!.
  - apply Hall. reflexivity.
  - done.
  - intros scn. unfold panel_item.
    destruct (Z.leb_spec 0 (ls_ranges_index scn)); [|by eexists].
    destruct (Z.ltb_spec (ls_ranges_index scn) (Z.of_nat (length (ls_ranges scn))));
      [|by eexists].
    destruct (lookup_lt_is_Some_2 (ls_ranges scn) (Z.to_nat (ls_ranges_index scn)))
      as [item ->]; [lia|]. by eexists.
  - intros scn [[Hnil Hidx]|Hok]%index_ok_alt.
    + split; [done|]. intros _. apply panel_item_out. lia.
    + destruct (lookup_lt_is_Some_2 (ls_ranges scn) (Z.to_nat (ls_ranges_index scn)))
        as [item Hitem]; [lia|].
      rewrite (panel_item_in scn (Z.to_nat (ls_ranges_index scn)) item) by (done || lia).
      split; [done|]. intros Hnil. rewrite Hnil in Hok. simpl in Hok. lia.
Qed.
